(** * useFetchCID: retrying, caching content fetcher

    A shallow embedding of [src/AttensysUI/src/hooks/useFetchCID.ts] and the
    properties its specification states about it.

    The hook is asynchronous JavaScript.  Its functions are embedded as
    programs of a small effect monad [Async] whose nodes are the
    operations the source performs on its surroundings: the status
    mapping held in React state, the module-level LRU cache, the gateway
    call [pinata.gateways.get] and the [setTimeout] delay.  The same
    program is then run in two ways: sequentially against a gateway
    (one call at a time, as a caller that awaits each call does), and
    as one of several suspended tasks resumed by an event loop (what
    [Promise.all] over a mapped array does). *)

From Stdlib Require Import ZArith NArith String List Bool Lia.
From stdpp Require Import base option list gmap strings.

Local Open Scope string_scope.

(** ** JavaScript values *)

(** The values that reach this code: a payload returned by the gateway and
    the value a rejected gateway call carries ([error: unknown] in the
    source).  Numbers are the integral ones; functions and arrays do not
    occur.  An object is its visible properties, own or inherited, the first
    binding of a name being the one that is read. *)
#[warnings="-register-all"]
Inductive Value : Type :=
| VUndefined
| VNull
| VBool (b : bool)
| VNum (n : Z)
| VStr (s : string)
| VObj (fields : list (string * Value)).

(** How a computation ends: with a value, or with a thrown value.  For an
    async function these are the fulfilled and the rejected promise. *)
Inductive Settled (A : Type) : Type :=
| Fulfilled (a : A)
| Rejected (e : Value).
Arguments Fulfilled {A} a.
Arguments Rejected {A} e.

Definition TypeError (message : string) : Value :=
  VObj [("name", VStr "TypeError"); ("message", VStr message)].

(** [if (v)], [!v], [v || w]: JavaScript truthiness. *)
Definition truthy (v : Value) : bool :=
  match v with
  | VUndefined | VNull => false
  | VBool b => b
  | VNum n => negb (n =? 0)%Z
  | VStr s => negb (String.eqb s "")
  | VObj _ => true
  end.

(** [v == null], the test behind [?.] and [??]. *)
Definition nullish (v : Value) : bool :=
  match v with
  | VUndefined | VNull => true
  | _ => false
  end.

Fixpoint lookup_field (p : string) (fields : list (string * Value)) : option Value :=
  match fields with
  | [] => None
  | (q, v) :: rest => if String.eqb p q then Some v else lookup_field p rest
  end.

(** [v.p]: throws on [undefined] and [null], is [undefined] for a property
    that is not there. *)
Definition get_prop (v : Value) (p : string) : Settled Value :=
  match v with
  | VUndefined =>
      Rejected (TypeError ("Cannot read properties of undefined (reading '" ++ p ++ "')"))
  | VNull =>
      Rejected (TypeError ("Cannot read properties of null (reading '" ++ p ++ "')"))
  | VObj fields =>
      Fulfilled (match lookup_field p fields with Some x => x | None => VUndefined end)
  | _ => Fulfilled VUndefined
  end.

(** [v?.p] *)
Definition opt_prop (v : Value) (p : string) : Value :=
  match v with
  | VObj fields => match lookup_field p fields with Some x => x | None => VUndefined end
  | _ => VUndefined
  end.

(** [typeof v === "object"]; true of [null]. *)
Definition typeof_object (v : Value) : bool :=
  match v with
  | VNull | VObj _ => true
  | _ => false
  end.

(** ["p" in v]: throws unless [v] is an object; [null] is not one. *)
Definition has_prop (p : string) (v : Value) : Settled bool :=
  match v with
  | VObj fields => Fulfilled (match lookup_field p fields with Some _ => true | None => false end)
  | VNull =>
      Rejected (TypeError ("Cannot use 'in' operator to search for '" ++ p ++ "' in null"))
  | _ => Rejected (TypeError ("Cannot use 'in' operator to search for '" ++ p ++ "'"))
  end.

(** [String.prototype.includes]: [needle] occurs in [hay]. *)
Fixpoint includes (needle hay : string) : bool :=
  String.prefix needle hay ||
  match hay with
  | EmptyString => false
  | String _ rest => includes needle rest
  end.

(** [m?.includes(needle)] for a property value [m]: skipped when [m] is
    nullish, the string method on a string, and a call of something that is
    not a function on anything else. *)
Definition opt_includes (m : Value) (needle : string) : Settled bool :=
  match m with
  | VUndefined | VNull => Fulfilled false
  | VStr s => Fulfilled (includes needle s)
  | _ => Rejected (TypeError "normalizedError?.message?.includes is not a function")
  end.

Definition strict_eq_num (v : Value) (n : Z) : bool :=
  match v with VNum m => (m =? n)%Z | _ => false end.

Definition strict_eq_str (v : Value) (s : string) : bool :=
  match v with VStr t => String.eqb t s | _ => false end.

(** Sequencing of computations that may throw, and the short-circuit [||]
    on their truth values. *)
Definition settled_bind {A B} (m : Settled A) (f : A -> Settled B) : Settled B :=
  match m with
  | Fulfilled a => f a
  | Rejected e => Rejected e
  end.

Definition or_else (a : Settled bool) (b : Settled bool) : Settled bool :=
  settled_bind a (fun x => if x then Fulfilled true else b).

(** ** Constants *)

Definition DEFAULT_MAX_RETRIES : nat := 2.
Definition RETRY_DELAY : N := 1000.
Definition DEFAULT_TTL : N := 1000 * 60 * 30.
Definition CACHE_MAX : nat := 1000.
Definition AUTH_SENTINEL : string := "ERR_ID:00006".

(** ** Error classification (lines 74-83) *)

Definition isAuthError (normalizedError : Value) : Settled bool :=
  or_else (opt_includes (opt_prop normalizedError "message") "403")
 (or_else (opt_includes (opt_prop normalizedError "message") "Authentication Failed")
 (or_else (if typeof_object normalizedError
           then settled_bind (has_prop "response" normalizedError) (fun present =>
                  if present
                  then Fulfilled
                         (strict_eq_num (opt_prop (opt_prop normalizedError "response") "status") 403)
                  else Fulfilled false)
           else Fulfilled false)
 (or_else (Fulfilled (strict_eq_str (opt_prop normalizedError "name") "AuthenticationError"))
          (if typeof_object normalizedError
           then settled_bind (has_prop "code" normalizedError) (fun present =>
                  if present
                  then Fulfilled (strict_eq_str (opt_prop normalizedError "code") AUTH_SENTINEL)
                  else Fulfilled false)
           else Fulfilled false)))).

(** ** StatusTracker: the React state [status] (lines 26-50, 150-161) *)

(** [FetchStatus], and [Partial<FetchStatus>]: a field is there or not.
    The [error] field holds [null] or a message. *)
Record FetchStatus : Type := {
  loading : option bool;
  error : option Value;
  lastUpdated : option N
}.

Definition no_fields : FetchStatus :=
  {| loading := None; error := None; lastUpdated := None |}.

(** [{ ...a, ...b }]: a field of [b] wins where [b] has it. *)
Definition spread (a b : FetchStatus) : FetchStatus :=
  {| loading := match loading b with Some x => Some x | None => loading a end;
     error := match error b with Some x => Some x | None => error a end;
     lastUpdated := match lastUpdated b with Some x => Some x | None => lastUpdated a end |}.

(** The updater handed to [setStatus]:
    [{ ...prev, [CID]: { ...prev[CID], ...updates, lastUpdated: Date.now() } }].
    Updaters queued by React are applied in order, each to the result of the
    one before, so the mapping is threaded through the calls. *)
Definition updateStatus (CID : string) (updates : FetchStatus) (date_now : N)
    (prev : gmap string FetchStatus) : gmap string FetchStatus :=
  <[CID := spread (spread (default no_fields (prev !! CID)) updates)
                  {| loading := None; error := None; lastUpdated := Some date_now |}]> prev.

(** The three updates the hook makes. *)
Definition loading_update : FetchStatus :=
  {| loading := Some true; error := Some VNull; lastUpdated := None |}.
Definition success_update : FetchStatus :=
  {| loading := Some false; error := None; lastUpdated := None |}.
Definition error_update (message : Value) : FetchStatus :=
  {| loading := Some false; error := Some message; lastUpdated := None |}.

Definition markLoading (CID : string) := updateStatus CID loading_update.
Definition markSuccess (CID : string) := updateStatus CID success_update.
Definition markError (CID : string) (message : Value) := updateStatus CID (error_update message).

(** [status[CID]?.loading ?? false] *)
Definition isLoading (status : gmap string FetchStatus) (CID : string) : bool :=
  match status !! CID with
  | Some st => default false (loading st)
  | None => false
  end.

(** [status[CID]?.error ?? null] *)
Definition getError (status : gmap string FetchStatus) (CID : string) : Value :=
  match status !! CID with
  | Some st => match error st with
               | Some e => if nullish e then VNull else e
               | None => VNull
               end
  | None => VNull
  end.

(** [status[CID]?.lastUpdated]; [None] is [undefined]. *)
Definition getLastUpdated (status : gmap string FetchStatus) (CID : string) : option N :=
  match status !! CID with
  | Some st => lastUpdated st
  | None => None
  end.

(** ** Cache *)

Module LRUCache.

(** Modelled from the spec: the [lru-cache] package the hook imports is
    not part of the sources.  Section 4.1 of the specification gives its
    contract: at most [max] entries, the least recently used one evicted
    first; an entry lives [ttl] milliseconds from its insertion and a [get]
    at [start + ttl] or later finds it absent and removes it; a [get]
    counts as a use.  Setting [undefined] deletes the key, as the package
    does.  Entries are kept most recently used first. *)
Record Entry : Type := { key : string; value : Value; start : N }.

Definition t : Type := list Entry.

Definition remove (k : string) (c : t) : t :=
  filter (fun e => negb (String.eqb (key e) k)) c.

Definition find (k : string) (c : t) : option Entry :=
  List.find (fun e => String.eqb (key e) k) c.

Definition stale (ttl now : N) (e : Entry) : bool := (start e + ttl <=? now)%N.

(** Modelled from the spec: [cache.get(key)], the value or [undefined],
    and the cache after the lookup. *)
Definition get (ttl : N) (k : string) (now : N) (c : t) : Value * t :=
  match find k c with
  | None => (VUndefined, c)
  | Some e =>
      if stale ttl now e then (VUndefined, remove k c)
      else (value e, e :: remove k c)
  end.

(** Modelled from the spec: [cache.set(key, value)]; the new entry is the
    most recently used one and what no longer fits is dropped from the
    other end. *)
Definition set (max : nat) (k : string) (v : Value) (now : N) (c : t) : t :=
  match v with
  | VUndefined => remove k c
  | _ => take max ({| key := k; value := v; start := now |} :: remove k c)
  end.

End LRUCache.

(** ** The effect monad *)

(** A program is a tree: it returns, throws, or performs one operation on
    its surroundings and continues with what comes back.  The first three
    operations are synchronous; [AwaitGet] and [AwaitDelay] are the two
    places where the source suspends ([await pinata.gateways.get(CID)] and
    the awaited [setTimeout] promise).  Console output is no node: it is
    not behaviour a caller can depend on; only the evaluation of its
    arguments is kept, where that can throw. *)
Inductive Async (A : Type) : Type :=
| Ret (a : A)
| Raise (e : Value)
| UpdateStatus (CID : string) (updates : FetchStatus) (k : Async A)
| CacheGet (CID : string) (k : Value -> Async A)
| CacheSet (CID : string) (v : Value) (k : Async A)
| AwaitGet (CID : string) (k : Settled Value -> Async A)
| AwaitDelay (ms : N) (k : Async A).
Arguments Ret {A} a.
Arguments Raise {A} e.
Arguments UpdateStatus {A} CID updates k.
Arguments CacheGet {A} CID k.
Arguments CacheSet {A} CID v k.
Arguments AwaitGet {A} CID k.
Arguments AwaitDelay {A} ms k.

Fixpoint bind {A B} (m : Async A) (f : A -> Async B) : Async B :=
  match m with
  | Ret a => f a
  | Raise e => Raise e
  | UpdateStatus CID u k => UpdateStatus CID u (bind k f)
  | CacheGet CID k => CacheGet CID (fun v => bind (k v) f)
  | CacheSet CID v k => CacheSet CID v (bind k f)
  | AwaitGet CID k => AwaitGet CID (fun r => bind (k r) f)
  | AwaitDelay ms k => AwaitDelay ms (bind k f)
  end.

(** [try { m } catch (error) { handler error }]: what the handler itself
    throws is not caught. *)
Fixpoint try_catch {A} (m : Async A) (handler : Value -> Async A) : Async A :=
  match m with
  | Ret a => Ret a
  | Raise e => handler e
  | UpdateStatus CID u k => UpdateStatus CID u (try_catch k handler)
  | CacheGet CID k => CacheGet CID (fun v => try_catch (k v) handler)
  | CacheSet CID v k => CacheSet CID v (try_catch k handler)
  | AwaitGet CID k => AwaitGet CID (fun r => try_catch (k r) handler)
  | AwaitDelay ms k => AwaitDelay ms (try_catch k handler)
  end.

(** A synchronous expression that may throw, inside a program. *)
Definition eval {A} (m : Settled A) : Async A :=
  match m with
  | Fulfilled a => Ret a
  | Rejected e => Raise e
  end.

(** [await pinata.gateways.get(CID)]: the payload, or the rejection thrown
    at the [await]. *)
Definition gateways_get (CID : string) : Async Value :=
  AwaitGet CID (fun r => eval r).

Declare Scope async_scope.
Delimit Scope async_scope with async.
Notation "x <- m ;; k" := (bind m (fun x => k))
  (at level 90, m at next level, right associativity) : async_scope.
Notation "m ;;; k" := (bind m (fun _ => k))
  (at level 90, right associativity) : async_scope.
Local Open Scope async_scope.

(** ** fetchWithRetry (lines 52-111) *)

(** The source recurses on [retryCount + 1] while
    [retryCount < DEFAULT_MAX_RETRIES]; [retries_left] is the distance to
    that bound, on which the recursion is structural.  [fetchWithRetry_eq]
    below gives the equation as the source has it. *)
Fixpoint retryLoop (retries_left : nat) (CID : string) (retryCount : nat) : Async Value :=
  try_catch
    (response <- gateways_get CID;;
     Ret response)
    (fun normalizedError =>
       isAuth <- eval (isAuthError normalizedError);;
       if isAuth then
         eval (get_prop normalizedError "message");;;
         Ret VNull
       else
         match retries_left with
         | S retries_left' =>
             AwaitDelay (RETRY_DELAY * N.of_nat (retryCount + 1)) (Ret tt);;;
             retryLoop retries_left' CID (retryCount + 1)
         | O =>
             eval (get_prop normalizedError "message");;;
             Ret VNull
         end).

Definition fetchWithRetry (CID : string) (retryCount : nat) : Async Value :=
  retryLoop (DEFAULT_MAX_RETRIES - retryCount) CID retryCount.

(** ** fetchCIDContent (lines 113-138) *)

(** [error.message || "Unknown error"] *)
Definition message_or_unknown (error : Value) : Settled Value :=
  settled_bind (get_prop error "message") (fun m =>
    Fulfilled (if truthy m then m else VStr "Unknown error")).

Definition fetchCIDContent (CID : string) : Async Value :=
  if negb (truthy (VStr CID)) then Ret VNull else
  UpdateStatus CID loading_update (Ret tt);;;
  cachedResponse <- CacheGet CID Ret;;
  if truthy cachedResponse then Ret cachedResponse else
  try_catch
    (data <- fetchWithRetry CID 0;;
     CacheSet CID data (Ret tt);;;
     UpdateStatus CID success_update (Ret tt);;;
     Ret data)
    (fun error =>
       message <- eval (message_or_unknown error);;
       UpdateStatus CID (error_update message) (Ret tt);;;
       Ret VNull).

(** ** Running a program against a gateway *)

(** What one gateway call comes to: how long it took and how its promise
    settled. *)
Record Reply : Type := { took : N; outcome : Settled Value }.

(** The gateway, as the hook sees it: the reply to its [n]-th call
    (counted from 0 over the life of the world) for a given CID. *)
Definition Gateway : Type := nat -> string -> Reply.

(** Everything the hook reads or writes: the shared cache, the status
    mapping, the clock (milliseconds), and the log of the gateway calls
    made so far, in order. *)
Record World : Type := {
  cache : LRUCache.t;
  status : gmap string FetchStatus;
  now : N;
  calls : list string
}.

Definition set_cache (c : LRUCache.t) (w : World) : World :=
  {| cache := c; status := status w; now := now w; calls := calls w |}.
Definition set_status (s : gmap string FetchStatus) (w : World) : World :=
  {| cache := cache w; status := s; now := now w; calls := calls w |}.
Definition elapse (ms : N) (w : World) : World :=
  {| cache := cache w; status := status w; now := (now w + ms)%N; calls := calls w |}.
Definition log_call (CID : string) (w : World) : World :=
  {| cache := cache w; status := status w; now := now w; calls := calls w ++ [CID] |}.

Definition do_updateStatus (CID : string) (u : FetchStatus) (w : World) : World :=
  set_status (updateStatus CID u (now w) (status w)) w.
Definition do_cache_get (CID : string) (w : World) : Value * World :=
  let (v, c) := LRUCache.get DEFAULT_TTL CID (now w) (cache w) in (v, set_cache c w).
Definition do_cache_set (CID : string) (v : Value) (w : World) : World :=
  set_cache (LRUCache.set CACHE_MAX CID v (now w) (cache w)) w.

(** A caller that awaits the call: every suspension is waited out before
    anything else happens.  A delay lasts its nominal time. *)
Fixpoint run {A} (gw : Gateway) (m : Async A) (w : World) : Settled A * World :=
  match m with
  | Ret a => (Fulfilled a, w)
  | Raise e => (Rejected e, w)
  | UpdateStatus CID u k => run gw k (do_updateStatus CID u w)
  | CacheGet CID k => let (v, w') := do_cache_get CID w in run gw (k v) w'
  | CacheSet CID v k => run gw k (do_cache_set CID v w)
  | AwaitGet CID k =>
      let reply := gw (length (calls w)) CID in
      run gw (k (outcome reply)) (elapse (took reply) (log_call CID w))
  | AwaitDelay ms k => run gw k (elapse ms w)
  end.


(** ** A call and the world around it *)

(** How the gateway settles the [j]-th call made from world [w] on, if all
    of them are for [CID]. *)
Definition attempt (gw : Gateway) (CID : string) (w : World) (j : nat) : Settled Value :=
  outcome (gw (length (calls w) + j) CID).

(** The world after the gateway call made in world [w]. *)
Definition after_call (gw : Gateway) (CID : string) (w : World) : World :=
  elapse (took (gw (length (calls w)) CID)) (log_call CID w).

(** What [cache.get(CID)] at line 117 returns in world [w], and the world
    after lines 116 and 117. *)
Definition cached (CID : string) (w : World) : Value :=
  fst (LRUCache.get DEFAULT_TTL CID (now w) (cache w)).

Definition after_lookup (CID : string) (w : World) : World :=
  set_cache (snd (LRUCache.get DEFAULT_TTL CID (now w) (cache w)))
            (do_updateStatus CID loading_update w).

(** Every lookup of [CID], now or later, comes back falsy. *)
Definition misses (CID : string) (c : LRUCache.t) : Prop :=
  forall t, truthy (fst (LRUCache.get DEFAULT_TTL CID t c)) = false.

(** ** fetchCIDContent after a cache miss *)

(** The part of [fetchCIDContent] after a cache miss (lines 122-135), with
    the retry loop at any stage: [fetchCIDContent] enters it at
    [retries_left = DEFAULT_MAX_RETRIES] and [retryCount = 0]. *)
Definition after_miss (retries_left : nat) (CID : string) (retryCount : nat) : Async Value :=
  try_catch
    (data <- retryLoop retries_left CID retryCount;;
     CacheSet CID data (Ret tt);;;
     UpdateStatus CID success_update (Ret tt);;;
     Ret data)
    (fun error =>
       message <- eval (message_or_unknown error);;
       UpdateStatus CID (error_update message) (Ret tt);;;
       Ret VNull).

Arguments isAuthError : simpl never.
Arguments get_prop : simpl never.
Arguments message_or_unknown : simpl never.

(** The shape of [after_miss]: one gateway call, and what follows each way
    it can settle. *)
Definition store_and_return (CID : string) (data : Value) : Async Value :=
  CacheSet CID data (UpdateStatus CID success_update (Ret data)).

Definition record_error (CID : string) (error : Value) : Async Value :=
  message <- eval (message_or_unknown error);;
  UpdateStatus CID (error_update message) (Ret VNull).

Definition abandon (CID : string) (normalizedError : Value) : Async Value :=
  match get_prop normalizedError "message" with
  | Fulfilled _ => store_and_return CID VNull
  | Rejected err => record_error CID err
  end.

Definition on_reply (left : nat) (CID : string) (retryCount : nat) (r : Settled Value) :
    Async Value :=
  match r with
  | Fulfilled response => store_and_return CID response
  | Rejected normalizedError =>
      match isAuthError normalizedError with
      | Fulfilled true => abandon CID normalizedError
      | Fulfilled false =>
          match left with
          | S left' =>
              AwaitDelay (RETRY_DELAY * N.of_nat (retryCount + 1))
                (after_miss left' CID (retryCount + 1))
          | O => abandon CID normalizedError
          end
      | Rejected err => record_error CID err
      end
  end.

(** ** The error shape the source declares, and the specification's list *)

(** The cast at lines 64-71 takes a caught value to be an object whose
    [message], when there, is a string. *)
Definition declared_shape (e : Value) : bool :=
  match e with
  | VObj _ =>
      match opt_prop e "message" with
      | VUndefined | VNull | VStr _ => true
      | _ => false
      end
  | _ => false
  end.

Definition message_contains (e : Value) (needle : string) : bool :=
  match opt_prop e "message" with
  | VStr m => includes needle m
  | _ => false
  end.

(** The classification in the words of the specification (section 4.2):
    message containing "403"; message containing "Authentication Failed";
    a nested [response.status] equal to 403; a name equal to
    "AuthenticationError"; a [code] equal to the sentinel. *)
Definition auth_by_spec (e : Value) : bool :=
  message_contains e "403"
  || message_contains e "Authentication Failed"
  || strict_eq_num (opt_prop (opt_prop e "response") "status") 403
  || strict_eq_str (opt_prop e "name") "AuthenticationError"
  || strict_eq_str (opt_prop e "code") AUTH_SENTINEL.

(** A failure that is retried and, on the last attempt, given up on: a
    thrown value the classification evaluates to [false] on.  A bare
    [undefined] carries no error at all and is not one. *)
Definition nonAuthError (e : Value) : Prop :=
  isAuthError e = Fulfilled false /\ e <> VUndefined.

(** ** fetchMultipleCIDs (lines 140-145): several calls in flight *)

(** [Promise.all(CIDs.map((cid) => fetchCIDContent(cid)))] starts every
    call before any of them is resumed: each runs synchronously up to its
    first suspension, in the order of the array.  From then on the event
    loop resumes one suspended call at a time, when its gateway call
    settles or its timer fires, and that call again runs up to its next
    suspension.  A call in flight is a [Task]. *)
Inductive Task : Type :=
| AwaitingReply (k : Settled Value -> Async Value)
| AwaitingTimer (due : N) (k : Async Value)
| Done (r : Settled Value).

(** Run a program up to its next suspension.  The gateway call is made (and
    logged) when the program reaches it; its reply comes later. *)
Fixpoint advance (m : Async Value) (w : World) : Task * World :=
  match m with
  | Ret a => (Done (Fulfilled a), w)
  | Raise e => (Done (Rejected e), w)
  | UpdateStatus CID u k => advance k (do_updateStatus CID u w)
  | CacheGet CID k => let (v, w') := do_cache_get CID w in advance (k v) w'
  | CacheSet CID v k => advance k (do_cache_set CID v w)
  | AwaitGet CID k => (AwaitingReply k, log_call CID w)
  | AwaitDelay ms k => (AwaitingTimer (now w + ms) k, w)
  end.

(** The calls of one [fetchMultipleCIDs], the first rejection among them
    (the one [Promise.all] rejects with) and the world they share. *)
Record Pool : Type := {
  tasks : list Task;
  rejection : option Value;
  world : World
}.

Definition note_rejection (t : Task) (seen : option Value) : option Value :=
  match seen, t with
  | None, Done (Rejected e) => Some e
  | _, _ => seen
  end.

Definition start_pool (w : World) : Pool :=
  {| tasks := []; rejection := None; world := w |}.

(** [CIDs.map((cid) => fetchCIDContent(cid))] *)
Fixpoint dispatch (CIDs : list string) (p : Pool) : Pool :=
  match CIDs with
  | [] => p
  | cid :: rest =>
      let (t, w') := advance (fetchCIDContent cid) (world p) in
      dispatch rest {| tasks := tasks p ++ [t];
                       rejection := note_rejection t (rejection p);
                       world := w' |}
  end.

(** What the event loop delivers: after [after] more milliseconds, task
    number [target] is resumed; [reply] is how its gateway call settled, if
    that is what it waits for.  A timer that is not due yet, a finished
    task and a number that names no task leave the pool as it is. *)
Record Event : Type := { after : N; target : nat; reply : Settled Value }.

Definition resume (i : nat) (m : Async Value) (w : World) (p : Pool) : Pool :=
  let (t, w') := advance m w in
  {| tasks := <[i := t]> (tasks p);
     rejection := note_rejection t (rejection p);
     world := w' |}.

Definition deliver (ev : Event) (p : Pool) : Pool :=
  let w := elapse (after ev) (world p) in
  match tasks p !! target ev with
  | Some (AwaitingReply k) => resume (target ev) (k (reply ev)) w p
  | Some (AwaitingTimer due k) =>
      if (due <=? now w)%N then resume (target ev) k w p
      else {| tasks := tasks p; rejection := rejection p; world := w |}
  | _ => {| tasks := tasks p; rejection := rejection p; world := w |}
  end.

Definition event_loop (evs : list Event) (p : Pool) : Pool :=
  fold_left (fun q ev => deliver ev q) evs p.

Definition fulfilled_value (t : Task) : option Value :=
  match t with
  | Done (Fulfilled v) => Some v
  | _ => None
  end.

(** [Promise.all]: rejected as soon as one call is, fulfilled with the
    values in the order of the calls once all are, pending ([None])
    otherwise. *)
Definition promise_all (p : Pool) : option (Settled (list Value)) :=
  match rejection p with
  | Some e => Some (Rejected e)
  | None =>
      match mapM fulfilled_value (tasks p) with
      | Some vs => Some (Fulfilled vs)
      | None => None
      end
  end.

(** The pool of [fetchMultipleCIDs(CIDs)] started in world [w], after the
    events [evs]. *)
Definition fetchMultipleCIDs (CIDs : list string) (w : World) (evs : list Event) : Pool :=
  event_loop evs (dispatch CIDs (start_pool w)).

(** One program started on its own, and the events of a caller that awaits
    it against gateway [gw]: each reply when it comes, each timer when it
    is due. *)
Definition spawn (m : Async Value) (w : World) : Pool :=
  let (t, w') := advance m w in
  {| tasks := [t]; rejection := note_rejection t None; world := w' |}.

Fixpoint awaited (gw : Gateway) (m : Async Value) (w : World) : list Event :=
  match m with
  | Ret _ | Raise _ => []
  | UpdateStatus CID u k => awaited gw k (do_updateStatus CID u w)
  | CacheGet CID k => let (v, w') := do_cache_get CID w in awaited gw (k v) w'
  | CacheSet CID v k => awaited gw k (do_cache_set CID v w)
  | AwaitGet CID k =>
      let r := gw (length (calls w)) CID in
      {| after := took r; target := 0; reply := outcome r |}
      :: awaited gw (k (outcome r)) (elapse (took r) (log_call CID w))
  | AwaitDelay ms k =>
      {| after := ms; target := 0; reply := Fulfilled VUndefined |}
      :: awaited gw k (elapse ms w)
  end.


(** ** Properties of program trees *)

(** After a rejected gateway call: the program gives [null], or waits
    before another attempt, without suspending on anything else first. *)
Inductive NullOrDelay : Async Value -> Prop :=
| ND_Ret : NullOrDelay (Ret VNull)
| ND_UpdateStatus CID u k : NullOrDelay k -> NullOrDelay (UpdateStatus CID u k)
| ND_CacheGet CID k : (forall v, NullOrDelay (k v)) -> NullOrDelay (CacheGet CID k)
| ND_CacheSet CID v k : NullOrDelay k -> NullOrDelay (CacheSet CID v k)
| ND_AwaitDelay ms k : NullOrDelay (AwaitDelay ms k).

(** No path of the program ends in a throw, and every gateway call, if
    rejected, is followed as [NullOrDelay] says. *)
Inductive Safe : Async Value -> Prop :=
| Safe_Ret v : Safe (Ret v)
| Safe_UpdateStatus CID u k : Safe k -> Safe (UpdateStatus CID u k)
| Safe_CacheGet CID k : (forall v, Safe (k v)) -> Safe (CacheGet CID k)
| Safe_CacheSet CID v k : Safe k -> Safe (CacheSet CID v k)
| Safe_AwaitGet CID k :
    (forall r, Safe (k r)) -> (forall e, NullOrDelay (k (Rejected e))) ->
    Safe (AwaitGet CID k)
| Safe_AwaitDelay ms k : Safe k -> Safe (AwaitDelay ms k).

(** The program suspends at most [n] times on any path. *)
Inductive Suspends : nat -> Async Value -> Prop :=
| Sus_Ret n v : Suspends n (Ret v)
| Sus_Raise n e : Suspends n (Raise e)
| Sus_UpdateStatus n CID u k : Suspends n k -> Suspends n (UpdateStatus CID u k)
| Sus_CacheGet n CID k : (forall v, Suspends n (k v)) -> Suspends n (CacheGet CID k)
| Sus_CacheSet n CID v k : Suspends n k -> Suspends n (CacheSet CID v k)
| Sus_AwaitGet n CID k : (forall r, Suspends n (k r)) -> Suspends (S n) (AwaitGet CID k)
| Sus_AwaitDelay n ms k : Suspends n k -> Suspends (S n) (AwaitDelay ms k).

(** Every status update of the program is for [CID]. *)
Inductive UpdatesOnly (CID : string) : Async Value -> Prop :=
| UO_Ret v : UpdatesOnly CID (Ret v)
| UO_Raise e : UpdatesOnly CID (Raise e)
| UO_UpdateStatus u k : UpdatesOnly CID k -> UpdatesOnly CID (UpdateStatus CID u k)
| UO_CacheGet c k : (forall v, UpdatesOnly CID (k v)) -> UpdatesOnly CID (CacheGet c k)
| UO_CacheSet c v k : UpdatesOnly CID k -> UpdatesOnly CID (CacheSet c v k)
| UO_AwaitGet c k : (forall r, UpdatesOnly CID (k r)) -> UpdatesOnly CID (AwaitGet c k)
| UO_AwaitDelay ms k : UpdatesOnly CID k -> UpdatesOnly CID (AwaitDelay ms k).

(** The program touches neither the cache nor the status mapping. *)
Inductive NetOnly : Async Value -> Prop :=
| NO_Ret v : NetOnly (Ret v)
| NO_Raise e : NetOnly (Raise e)
| NO_AwaitGet c k : (forall r, NetOnly (k r)) -> NetOnly (AwaitGet c k)
| NO_AwaitDelay ms k : NetOnly k -> NetOnly (AwaitDelay ms k).

(** A task in order: it is what is left of a safe program, with at most
    [n] suspensions to go. *)
Inductive TaskOk : nat -> Task -> Prop :=
| TaskOk_Reply n k :
    (forall r, Safe (k r)) -> (forall e, NullOrDelay (k (Rejected e))) ->
    (forall r, Suspends n (k r)) ->
    TaskOk (S n) (AwaitingReply k)
| TaskOk_Timer n due k : Safe k -> Suspends n k -> TaskOk (S n) (AwaitingTimer due k)
| TaskOk_Done n v : TaskOk n (Done (Fulfilled v)).


(** The calls of a pool are all what is left of safe programs, the [i]-th
    with at most the [i]-th number of [ns] suspensions to go, and none has
    been rejected. *)
Definition PoolOk (ns : list nat) (p : Pool) : Prop :=
  Forall2 TaskOk ns (tasks p) /\ rejection p = None.

(** ** Further notions: time, status and dispatch *)

(** How long the [j]-th call made from world [w] on takes. *)
Definition duration (gw : Gateway) (CID : string) (w : World) (j : nat) : N :=
  took (gw (length (calls w) + j) CID).

(** A thrown value that is not an object: a string, a number, a boolean. *)
Definition primitive (e : Value) : bool :=
  match e with
  | VBool _ | VNum _ | VStr _ => true
  | _ => false
  end.

(** Values on which the classification itself throws: [null], and an
    object whose [message] is a boolean, a number or an object that is
    plain data. *)
Definition unclassifiable (e : Value) : bool :=
  match e with
  | VNull => true
  | VObj fields =>
      match lookup_field "message" fields with
      | Some (VBool _) | Some (VNum _) | Some (VObj _) => true
      | _ => false
      end
  | _ => false
  end.

(** Every entry of the status mapping has all three fields. *)
Definition StatusComplete (st : gmap string FetchStatus) : Prop :=
  forall c e, st !! c = Some e ->
    is_Some (loading e) /\ is_Some (error e) /\ is_Some (lastUpdated e).

(** A call of [fetchCIDContent] that goes to the gateway from world [w]:
    the CID is not empty and the lookup is not a hit. *)
Definition goes_to_gateway (w : World) (CID : string) : bool :=
  truthy (VStr CID) && negb (truthy (cached CID w)).

(** What [fetchCIDContent(CID)] has come to once it suspends for the first
    time or returns without suspending, judged by the cache of world [w]:
    [None] stands for a call waiting for its gateway reply. *)
Definition settled_at_once (w : World) (CID : string) : option Value :=
  if negb (truthy (VStr CID)) then Some VNull
  else if truthy (cached CID w) then Some (cached CID w)
  else None.

Definition awaiting_reply (t : Task) : bool :=
  match t with AwaitingReply _ => true | _ => false end.

(** What is left of a call only updates the status of [CID]. *)
Definition TaskUpdates (CID : string) (t : Task) : Prop :=
  match t with
  | AwaitingReply k => forall r, UpdatesOnly CID (k r)
  | AwaitingTimer _ k => UpdatesOnly CID k
  | Done _ => True
  end.

(** What a lookup of [c] gives is the same in both worlds, and so is the
    time. *)
Definition same_lookups (w w1 : World) : Prop :=
  now w1 = now w /\ forall c, cached c w1 = cached c w.

(** How a call started in world [w] stands after [dispatch]: done with the
    value [settled_at_once] gives, or waiting for its reply. *)
Definition dispatched_as (w : World) (CID : string) (t : Task) : Prop :=
  fulfilled_value t = settled_at_once w CID
  /\ awaiting_reply t = goes_to_gateway w CID.

(** Every gateway call of the program is for [CID], and there are at most
    [n] of them on any path. *)
Inductive CallsAtMost (CID : string) : nat -> Async Value -> Prop :=
| CAM_Ret n v : CallsAtMost CID n (Ret v)
| CAM_Raise n e : CallsAtMost CID n (Raise e)
| CAM_UpdateStatus n c u k : CallsAtMost CID n k -> CallsAtMost CID n (UpdateStatus c u k)
| CAM_CacheGet n c k : (forall v, CallsAtMost CID n (k v)) -> CallsAtMost CID n (CacheGet c k)
| CAM_CacheSet n c v k : CallsAtMost CID n k -> CallsAtMost CID n (CacheSet c v k)
| CAM_AwaitGet n k : (forall r, CallsAtMost CID n (k r)) -> CallsAtMost CID (S n) (AwaitGet CID k)
| CAM_AwaitDelay n ms k : CallsAtMost CID n k -> CallsAtMost CID n (AwaitDelay ms k).

(** What is left of a call for [cb.1] makes at most [cb.2] more gateway
    calls, all for that CID. *)
Definition TaskCalls (cb : string * nat) (t : Task) : Prop :=
  match t with
  | AwaitingReply k => forall r, CallsAtMost cb.1 cb.2 (k r)
  | AwaitingTimer _ k => CallsAtMost cb.1 cb.2 k
  | Done _ => True
  end.

(** How often [c] occurs in a list of CIDs. *)
Definition occurrences (c : string) (l : list string) : nat :=
  length (List.filter (String.eqb c) l).

(** Among the calls in flight, with the gateway calls each may still make:
    how many are for [c], and how many gateway calls they may still make
    together. *)
Fixpoint entries (c : string) (cbs : list (string * nat)) : nat :=
  match cbs with
  | [] => 0
  | (c', _) :: rest => (if String.eqb c c' then 1 else 0) + entries c rest
  end.

Fixpoint budget (c : string) (cbs : list (string * nat)) : nat :=
  match cbs with
  | [] => 0
  | (c', b) :: rest => (if String.eqb c c' then b else 0) + budget c rest
  end.

(** The gateway calls of a pool since the log was [base], with the calls
    in flight being for the CIDs [cbs.*1], in order: for every CID, the
    calls made for it and the calls still to come for it are together no
    more than [DEFAULT_MAX_RETRIES + 1] for each call in flight for it. *)
Definition PoolCalls (base : list string) (cbs : list (string * nat)) (p : Pool) : Prop :=
  Forall2 TaskCalls cbs (tasks p)
  /\ exists extra,
       calls (world p) = (base ++ extra)%list
       /\ (forall c,
             occurrences c extra + budget c cbs <= (DEFAULT_MAX_RETRIES + 1) * entries c cbs)
       /\ length extra + sum_list (cbs.*2) <= (DEFAULT_MAX_RETRIES + 1) * length cbs.

(** ** What a call in flight comes to *)










(** ** Worlds, errors and gateways to try the hook on *)

Definition empty_world : World :=
  {| cache := []; status := ∅; now := 0; calls := [] |}.

Definition forbidden : Value :=
  VObj [("name", VStr "Error"); ("message", VStr "Request failed: 403 Forbidden")].

Definition gateway_forbidden : Gateway :=
  fun _ _ => {| took := 40; outcome := Rejected forbidden |}.

Definition network_error : Value :=
  VObj [("name", VStr "Error"); ("message", VStr "Network Error")].

Definition gateway_down : Gateway :=
  fun _ _ => {| took := 40; outcome := Rejected network_error |}.

Definition payload : Value :=
  VObj [("data", VStr "course content"); ("contentType", VStr "application/json")].

Definition gateway_third_time : Gateway :=
  fun n _ => if (n <? 2)%nat
             then {| took := 40; outcome := Rejected network_error |}
             else {| took := 40; outcome := Fulfilled payload |}.

Definition gateway_up : Gateway :=
  fun _ _ => {| took := 40; outcome := Fulfilled payload |}.

(** The world a failed fetch of "QmA" leaves behind: [null] is in the cache. *)
Definition null_cached : World :=
  snd (run gateway_down (fetchCIDContent "QmA") empty_world).

(** An error object whose [message] is a number. *)
Definition odd_error : Value := VObj [("message", VNum 403)].

Definition gateway_odd : Gateway :=
  fun _ _ => {| took := 40; outcome := Rejected odd_error |}.

(** The world a successful fetch of "QmA" leaves behind. *)
Definition warm_world : World :=
  snd (run gateway_up (fetchCIDContent "QmA") empty_world).

Definition two_statuses : gmap string FetchStatus :=
  markSuccess "QmB" 7 (markLoading "QmB" 5 ∅).

(** Three calls in flight; the one for "b" is refused, the others answered. *)
Definition three_replies : list Event :=
  [ {| after := 30; target := 1; reply := Rejected forbidden |};
    {| after := 5; target := 2; reply := Fulfilled (VStr "c's content") |};
    {| after := 5; target := 0; reply := Fulfilled (VStr "a's content") |} ].

(** A gateway that rejects with a bare string. *)
Definition gateway_says_403 : Gateway :=
  fun _ _ => {| took := 40; outcome := Rejected (VStr "403 Forbidden") |}.


(** A gateway that is down for one call and refuses the next. *)
Definition gateway_down_then_forbidden : Gateway :=
  fun n _ => if (n <? 1)%nat
             then {| took := 40; outcome := Rejected network_error |}
             else {| took := 40; outcome := Rejected forbidden |}.
(** ** How [run] goes through the combinators *)

Lemma run_bind {A B} (gw : Gateway) (m : Async A) (f : A -> Async B) (w : World) :
  run gw (bind m f) w =
  match run gw m w with
  | (Fulfilled a, w') => run gw (f a) w'
  | (Rejected e, w') => (Rejected e, w')
  end.
Proof.
  revert w.
  induction m as [a|e|c u k IH|c k IH|c v k IH|c k IH|ms k IH]; intros w; simpl;
    try reflexivity; try apply IH.
  destruct (do_cache_get c w) as [v w']. apply IH.
Qed.

Lemma run_try_catch {A} (gw : Gateway) (m : Async A) (h : Value -> Async A) (w : World) :
  run gw (try_catch m h) w =
  match run gw m w with
  | (Fulfilled a, w') => (Fulfilled a, w')
  | (Rejected e, w') => run gw (h e) w'
  end.
Proof.
  revert w.
  induction m as [a|e|c u k IH|c k IH|c v k IH|c k IH|ms k IH]; intros w; simpl;
    try reflexivity; try apply IH.
  destruct (do_cache_get c w) as [v w']. apply IH.
Qed.

Lemma run_eval {A} (gw : Gateway) (m : Settled A) (w : World) :
  run gw (eval m) w = (m, w).
Proof. destruct m; reflexivity. Qed.

(** ** fetchWithRetry, as the source writes it *)

Lemma retryLoop_unfold (retries_left : nat) (CID : string) (retryCount : nat) :
  retryLoop retries_left CID retryCount =
  try_catch
    (response <- gateways_get CID;;
     Ret response)
    (fun normalizedError =>
       isAuth <- eval (isAuthError normalizedError);;
       if isAuth then
         eval (get_prop normalizedError "message");;;
         Ret VNull
       else
         match retries_left with
         | S retries_left' =>
             AwaitDelay (RETRY_DELAY * N.of_nat (retryCount + 1)) (Ret tt);;;
             retryLoop retries_left' CID (retryCount + 1)
         | O =>
             eval (get_prop normalizedError "message");;;
             Ret VNull
         end).
Proof. destruct retries_left; reflexivity. Qed.

(** The body of the source function, with its own test
    [retryCount < DEFAULT_MAX_RETRIES] and its own recursive call. *)
Lemma fetchWithRetry_eq (CID : string) (retryCount : nat) :
  fetchWithRetry CID retryCount =
  try_catch
    (response <- gateways_get CID;;
     Ret response)
    (fun normalizedError =>
       isAuth <- eval (isAuthError normalizedError);;
       if isAuth then
         eval (get_prop normalizedError "message");;;
         Ret VNull
       else if (retryCount <? DEFAULT_MAX_RETRIES)%nat then
         AwaitDelay (RETRY_DELAY * N.of_nat (retryCount + 1)) (Ret tt);;;
         fetchWithRetry CID (retryCount + 1)
       else
         eval (get_prop normalizedError "message");;;
         Ret VNull).
Proof. destruct retryCount as [|[|n]]; reflexivity. Qed.

(** ** One attempt of fetchWithRetry *)

Lemma isAuthError_true_not_nullish (e : Value) :
  isAuthError e = Fulfilled true -> nullish e = false.
Proof. destruct e; simpl; intros H; try reflexivity; discriminate H. Qed.

Lemma get_prop_not_nullish (e : Value) (p : string) :
  nullish e = false -> exists v, get_prop e p = Fulfilled v.
Proof. destruct e; simpl; intros H; try discriminate H; eauto. Qed.

Section OneAttempt.
Variables (gw : Gateway) (CID : string) (w : World).

Lemma attempt_fulfilled (left retryCount : nat) (v : Value) :
  outcome (gw (length (calls w)) CID) = Fulfilled v ->
  run gw (retryLoop left CID retryCount) w = (Fulfilled v, after_call gw CID w).
Proof.
  intros Hv. rewrite retryLoop_unfold. simpl. rewrite Hv. reflexivity.
Qed.

Lemma attempt_auth (left retryCount : nat) (e : Value) :
  outcome (gw (length (calls w)) CID) = Rejected e ->
  isAuthError e = Fulfilled true ->
  run gw (retryLoop left CID retryCount) w = (Fulfilled VNull, after_call gw CID w).
Proof.
  intros He Hauth. rewrite retryLoop_unfold. simpl. rewrite He. simpl.
  rewrite Hauth. simpl.
  destruct (get_prop_not_nullish e "message" (isAuthError_true_not_nullish e Hauth)) as [m Hm].
  rewrite Hm. reflexivity.
Qed.

Lemma attempt_retry (left retryCount : nat) (e : Value) :
  outcome (gw (length (calls w)) CID) = Rejected e ->
  isAuthError e = Fulfilled false ->
  run gw (retryLoop (S left) CID retryCount) w =
  run gw (retryLoop left CID (retryCount + 1))
      (elapse (RETRY_DELAY * N.of_nat (retryCount + 1)) (after_call gw CID w)).
Proof.
  intros He Hauth. rewrite (retryLoop_unfold (S left)). simpl. rewrite He. simpl.
  rewrite Hauth. reflexivity.
Qed.

Lemma attempt_last (retryCount : nat) (e : Value) :
  outcome (gw (length (calls w)) CID) = Rejected e ->
  isAuthError e = Fulfilled false ->
  e <> VUndefined ->
  run gw (retryLoop 0 CID retryCount) w = (Fulfilled VNull, after_call gw CID w).
Proof.
  intros He Hauth Hdef. simpl. rewrite He. simpl. rewrite Hauth. simpl.
  destruct e; try (exfalso; apply Hdef; reflexivity); try reflexivity.
  discriminate Hauth.
Qed.

Lemma attempt_throws (left retryCount : nat) (e err : Value) :
  outcome (gw (length (calls w)) CID) = Rejected e ->
  isAuthError e = Rejected err ->
  run gw (retryLoop left CID retryCount) w = (Rejected err, after_call gw CID w).
Proof.
  intros He Hauth. rewrite retryLoop_unfold. simpl. rewrite He. simpl.
  rewrite Hauth. reflexivity.
Qed.
End OneAttempt.

Lemma calls_after_call (gw : Gateway) (CID : string) (w : World) :
  calls (after_call gw CID w) = (calls w ++ [CID])%list.
Proof. reflexivity. Qed.

(** ** The classification on errors of the declared shape *)

Lemma isAuthError_declared (e : Value) :
  declared_shape e = true -> isAuthError e = Fulfilled (auth_by_spec e).
Proof.
  destruct e as [| | | | |fields]; try discriminate.
  unfold declared_shape, isAuthError, auth_by_spec, message_contains, or_else.
  cbn [opt_prop typeof_object has_prop settled_bind].
  intros Hshape.
  destruct (lookup_field "message" fields) as [[| | | |m|]|]; try discriminate Hshape;
    cbn [opt_includes settled_bind orb];
    repeat match goal with
    | |- context [includes ?n ?m] => destruct (includes n m); cbn [settled_bind orb]
    end;
    try reflexivity;
    (destruct (lookup_field "response" fields) as [r|]; cbn [settled_bind opt_prop];
     [destruct (strict_eq_num (opt_prop r "status") 403)|];
     cbn [settled_bind orb strict_eq_num]; try reflexivity;
     (destruct (strict_eq_str
                  match lookup_field "name" fields with Some x => x | None => VUndefined end
                  "AuthenticationError");
      cbn [settled_bind orb]; try reflexivity;
      destruct (lookup_field "code" fields); reflexivity)).
Qed.

Lemma declared_shape_defined (e : Value) : declared_shape e = true -> e <> VUndefined.
Proof. intros H ->. discriminate H. Qed.

Lemma nonAuthError_declared (e : Value) :
  declared_shape e = true -> auth_by_spec e = false -> nonAuthError e.
Proof.
  intros Hs Ha. split.
  - rewrite (isAuthError_declared e Hs), Ha. reflexivity.
  - apply declared_shape_defined, Hs.
Qed.

(** ** The retry loop as a whole *)

Section RetryLoop.
Variables (gw : Gateway) (CID : string).

Lemma attempt_0 (w : World) :
  attempt gw CID w 0 = outcome (gw (length (calls w)) CID).
Proof. unfold attempt. rewrite Nat.add_0_r. reflexivity. Qed.

Lemma attempt_shift (w : World) (ms : N) (j : nat) :
  attempt gw CID (elapse ms (after_call gw CID w)) j = attempt gw CID w (S j).
Proof.
  unfold attempt. simpl. rewrite length_app. simpl.
  replace (length (calls w) + 1 + j) with (length (calls w) + S j) by lia.
  reflexivity.
Qed.

Lemma retryLoop_succeeds (left : nat) :
  forall (retryCount : nat) (w : World) (k : nat) (v : Value),
    k <= left ->
    (forall j, j < k ->
       exists e, attempt gw CID w j = Rejected e /\ isAuthError e = Fulfilled false) ->
    attempt gw CID w k = Fulfilled v ->
    exists w', run gw (retryLoop left CID retryCount) w = (Fulfilled v, w')
               /\ calls w' = (calls w ++ replicate (S k) CID)%list.
Proof.
  induction left as [|left IH]; intros rc w k v Hk Hfail Hok.
  - assert (k = 0) as -> by lia. rewrite attempt_0 in Hok.
    eexists. split; [apply attempt_fulfilled, Hok | reflexivity].
  - destruct k as [|k].
    + rewrite attempt_0 in Hok.
      eexists. split; [apply attempt_fulfilled, Hok | reflexivity].
    + destruct (Hfail 0) as (e & He & Hauth); [lia|].
      rewrite attempt_0 in He.
      rewrite (attempt_retry gw CID w left rc e He Hauth).
      destruct (IH (rc + 1)
                  (elapse (RETRY_DELAY * N.of_nat (rc + 1)) (after_call gw CID w)) k v)
        as (w' & Hrun & Hcalls).
      * lia.
      * intros j Hj. rewrite attempt_shift. apply Hfail. lia.
      * rewrite attempt_shift. exact Hok.
      * exists w'. split; [exact Hrun|].
        rewrite Hcalls. simpl. rewrite <- app_assoc. reflexivity.
Qed.

Lemma retryLoop_exhausted (left : nat) :
  forall (retryCount : nat) (w : World),
    (forall j, j <= left -> exists e, attempt gw CID w j = Rejected e /\ nonAuthError e) ->
    exists w', run gw (retryLoop left CID retryCount) w = (Fulfilled VNull, w')
               /\ calls w' = (calls w ++ replicate (S left) CID)%list.
Proof.
  induction left as [|left IH]; intros rc w Hfail.
  - destruct (Hfail 0) as (e & He & Hauth & Hdef); [lia|].
    rewrite attempt_0 in He.
    eexists. split; [apply (attempt_last gw CID w rc e He Hauth Hdef) | reflexivity].
  - destruct (Hfail 0) as (e & He & Hauth & _); [lia|].
    rewrite attempt_0 in He.
    rewrite (attempt_retry gw CID w left rc e He Hauth).
    destruct (IH (rc + 1)
                (elapse (RETRY_DELAY * N.of_nat (rc + 1)) (after_call gw CID w)))
      as (w' & Hrun & Hcalls).
    + intros j Hj. rewrite attempt_shift. apply Hfail. lia.
    + exists w'. split; [exact Hrun|].
      rewrite Hcalls. simpl. rewrite <- app_assoc. reflexivity.
Qed.
End RetryLoop.

(** ** What is thrown inside the hook is a [TypeError] *)

Lemma get_prop_rejected (e : Value) (p : string) (err : Value) :
  get_prop e p = Rejected err -> exists msg, err = TypeError msg.
Proof. destruct e; simpl; intros H; inversion H; eauto. Qed.

Lemma opt_includes_rejected (m : Value) (needle : string) (err : Value) :
  opt_includes m needle = Rejected err -> exists msg, err = TypeError msg.
Proof. destruct m; simpl; intros H; inversion H; eauto. Qed.

Lemma has_prop_rejected (p : string) (e : Value) (err : Value) :
  has_prop p e = Rejected err -> exists msg, err = TypeError msg.
Proof. destruct e; simpl; intros H; inversion H; eauto. Qed.

Lemma or_else_rejected (a b : Settled bool) (err : Value) :
  or_else a b = Rejected err -> a = Rejected err \/ b = Rejected err.
Proof.
  destruct a as [[|]|e]; simpl; intros H; [discriminate H | right; exact H | left; exact H].
Qed.

Lemma isAuthError_rejected (e : Value) (err : Value) :
  isAuthError e = Rejected err -> exists msg, err = TypeError msg.
Proof.
  unfold isAuthError. intros H.
  apply or_else_rejected in H as [H|H]; [eapply opt_includes_rejected, H|].
  apply or_else_rejected in H as [H|H]; [eapply opt_includes_rejected, H|].
  apply or_else_rejected in H as [H|H].
  { destruct (typeof_object e); [|discriminate].
    destruct (has_prop "response" e) as [[|]|x] eqn:Hp; simpl in H; try discriminate H.
    inversion H; subst. eapply has_prop_rejected, Hp. }
  apply or_else_rejected in H as [H|H]; [discriminate H|].
  destruct (typeof_object e); [|discriminate].
  destruct (has_prop "code" e) as [[|]|x] eqn:Hp; simpl in H; try discriminate H.
  inversion H; subst. eapply has_prop_rejected, Hp.
Qed.

Lemma message_or_unknown_TypeError (msg : string) :
  exists m, message_or_unknown (TypeError msg) = Fulfilled m.
Proof. unfold message_or_unknown, TypeError. simpl. eauto. Qed.

Lemma fetchCIDContent_eq (CID : string) :
  fetchCIDContent CID =
  if negb (truthy (VStr CID)) then Ret VNull
  else UpdateStatus CID loading_update
         (CacheGet CID (fun cachedResponse =>
            if truthy cachedResponse then Ret cachedResponse
            else after_miss DEFAULT_MAX_RETRIES CID 0)).
Proof. reflexivity. Qed.

(** ** The tree of [fetchCIDContent] *)

Lemma after_miss_shape (left : nat) (CID : string) (retryCount : nat) :
  exists k, after_miss left CID retryCount = AwaitGet CID k
            /\ forall r, k r = on_reply left CID retryCount r.
Proof.
  eexists. split.
  - unfold after_miss. rewrite retryLoop_unfold. cbn. reflexivity.
  - intros [v|e]; cbn; [reflexivity|].
    destruct (isAuthError e) as [[|]|err]; cbn; [| |reflexivity].
    + unfold abandon. destruct (get_prop e "message"); reflexivity.
    + destruct left; [|reflexivity].
      unfold abandon. destruct (get_prop e "message"); reflexivity.
Qed.

Lemma Suspends_mono (n n' : nat) (m : Async Value) :
  Suspends n m -> n <= n' -> Suspends n' m.
Proof.
  intros H. revert n'.
  induction H as [n v|n e|n c u k _ IH|n c k _ IH|n c v k _ IH|n c k _ IH|n ms k _ IH];
    intros n' Hle; try (constructor; auto; fail).
  - destruct n' as [|n']; [lia|]. constructor. intros r. apply IH. lia.
  - destruct n' as [|n']; [lia|]. constructor. apply IH. lia.
Qed.

Section AfterMiss.
Variable CID : string.

Lemma record_error_eq (msg : string) :
  exists m, record_error CID (TypeError msg) = UpdateStatus CID (error_update m) (Ret VNull).
Proof.
  destruct (message_or_unknown_TypeError msg) as [m Hm].
  exists m. unfold record_error. rewrite Hm. reflexivity.
Qed.

(** Giving up ends in one of two ways, both with [null]. *)
Lemma abandon_eq (e : Value) :
  abandon CID e = store_and_return CID VNull
  \/ exists m, abandon CID e = UpdateStatus CID (error_update m) (Ret VNull).
Proof.
  unfold abandon. destruct (get_prop e "message") as [v|err] eqn:Hp; [left; reflexivity|].
  right. destruct (get_prop_rejected _ _ _ Hp) as [msg ->]. apply record_error_eq.
Qed.

(** So does every other way a rejected call is handled, short of a retry. *)
Lemma on_reply_rejected (left retryCount : nat) (e : Value) :
  on_reply left CID retryCount (Rejected e) = store_and_return CID VNull
  \/ (exists m, on_reply left CID retryCount (Rejected e)
                = UpdateStatus CID (error_update m) (Ret VNull))
  \/ (exists left', left = S left' /\
        on_reply left CID retryCount (Rejected e)
        = AwaitDelay (RETRY_DELAY * N.of_nat (retryCount + 1))
            (after_miss left' CID (retryCount + 1))).
Proof.
  unfold on_reply. destruct (isAuthError e) as [[|]|err] eqn:Hauth.
  - destruct (abandon_eq e) as [H|H]; auto.
  - destruct left as [|left']; [|right; right; eauto].
    destruct (abandon_eq e) as [H|H]; auto.
  - right. left. destruct (isAuthError_rejected _ _ Hauth) as [msg ->].
    apply record_error_eq.
Qed.

Lemma NullOrDelay_on_reply (left retryCount : nat) (e : Value) :
  NullOrDelay (on_reply left CID retryCount (Rejected e)).
Proof.
  destruct (on_reply_rejected left retryCount e) as [->|[[m ->]|(left' & _ & ->)]];
    repeat constructor.
Qed.

(** One step into [after_miss]: name its continuation, take a reply, and
    split on how a rejected one is handled. *)
Ltac enter_after_miss rc k Hk :=
  match goal with
  | |- context [after_miss ?l CID rc] =>
      destruct (after_miss_shape l CID rc) as (k & -> & Hk)
  end.
Ltac split_rejected rc e :=
  match goal with
  | |- context [on_reply ?l CID rc (Rejected e)] =>
      let Hl := fresh "Hl" in
      destruct (on_reply_rejected l rc e) as [->|[[? ->]|(? & Hl & ->)]];
      [| |try discriminate Hl; try (injection Hl as <-)]
  end.

Lemma Safe_after_miss (left : nat) : forall retryCount, Safe (after_miss left CID retryCount).
Proof.
  induction left as [|left IH]; intros rc; enter_after_miss rc k Hk;
    (constructor; intros r; rewrite Hk; [|apply NullOrDelay_on_reply]);
    (destruct r as [v|e]; [repeat constructor|]);
    split_rejected rc e; repeat constructor; apply IH.
Qed.

Lemma Suspends_after_miss (left : nat) :
  forall retryCount, Suspends (2 * left + 1) (after_miss left CID retryCount).
Proof.
  induction left as [|left IH]; intros rc; enter_after_miss rc k Hk.
  - change (2 * 0 + 1) with 1. constructor. intros r. rewrite Hk.
    destruct r as [v|e]; [repeat constructor|].
    split_rejected rc e; repeat constructor.
  - replace (2 * S left + 1) with (S (S (2 * left + 1))) by lia.
    constructor. intros r. rewrite Hk.
    destruct r as [v|e]; [repeat constructor|].
    split_rejected rc e; repeat constructor. apply IH.
Qed.

Lemma UpdatesOnly_after_miss (left : nat) :
  forall retryCount, UpdatesOnly CID (after_miss left CID retryCount).
Proof.
  induction left as [|left IH]; intros rc; enter_after_miss rc k Hk;
    (constructor; intros r; rewrite Hk);
    (destruct r as [v|e]; [repeat constructor|]);
    split_rejected rc e; repeat constructor; apply IH.
Qed.

Lemma Safe_fetchCIDContent : Safe (fetchCIDContent CID).
Proof.
  rewrite fetchCIDContent_eq. destruct (negb (truthy (VStr CID))); [constructor|].
  constructor. constructor. intros v.
  destruct (truthy v); [constructor | apply Safe_after_miss].
Qed.

Lemma Suspends_fetchCIDContent : Suspends (2 * DEFAULT_MAX_RETRIES + 1) (fetchCIDContent CID).
Proof.
  rewrite fetchCIDContent_eq. destruct (negb (truthy (VStr CID))); [constructor|].
  constructor. constructor. intros v.
  destruct (truthy v); [constructor | apply Suspends_after_miss].
Qed.

Lemma UpdatesOnly_fetchCIDContent : UpdatesOnly CID (fetchCIDContent CID).
Proof.
  rewrite fetchCIDContent_eq. destruct (negb (truthy (VStr CID))); [constructor|].
  constructor. constructor. intros v.
  destruct (truthy v); [constructor | apply UpdatesOnly_after_miss].
Qed.
End AfterMiss.

(** ** What a run can and cannot change *)

Section RunFacts.
Variable gw : Gateway.

Lemma run_calls_extend (m : Async Value) :
  forall w, exists more, calls (snd (run gw m w)) = (calls w ++ more)%list.
Proof.
  induction m as [a|e|c u k IH|c k IH|c v k IH|c k IH|ms k IH]; intros w; simpl.
  - exists []. rewrite app_nil_r. reflexivity.
  - exists []. rewrite app_nil_r. reflexivity.
  - apply (IH (do_updateStatus c u w)).
  - unfold do_cache_get. destruct (LRUCache.get _ _ _ _) as [v c']. apply (IH v (set_cache c' w)).
  - apply (IH (do_cache_set c v w)).
  - destruct (IH (outcome (gw (length (calls w)) c))
                 (elapse (took (gw (length (calls w)) c)) (log_call c w))) as [more Hmore].
    exists (c :: more). rewrite Hmore. simpl. rewrite <- app_assoc. reflexivity.
  - apply (IH (elapse ms w)).
Qed.

Lemma run_Safe (m : Async Value) :
  Safe m -> forall w, exists v w', run gw m w = (Fulfilled v, w').
Proof.
  induction 1 as [v|c u k _ IH|c k _ IH|c v k _ IH|c k _ IH _|ms k _ IH]; intros w; simpl; eauto.
  unfold do_cache_get. destruct (LRUCache.get _ _ _ _) as [v c']. apply IH.
Qed.

Lemma run_UpdatesOnly (CID other : string) (m : Async Value) :
  UpdatesOnly CID m -> CID <> other ->
  forall w, status (snd (run gw m w)) !! other = status w !! other.
Proof.
  intros Hm Hne.
  induction Hm as [v|e|u k _ IH|c k _ IH|c v k _ IH|c k _ IH|ms k _ IH]; intros w; simpl;
    try reflexivity.
  - rewrite IH. simpl. unfold updateStatus. apply lookup_insert_ne, Hne.
  - unfold do_cache_get. destruct (LRUCache.get _ _ _ _) as [v c']. rewrite IH. reflexivity.
  - rewrite IH. reflexivity.
  - rewrite IH. reflexivity.
  - rewrite IH. reflexivity.
Qed.

Lemma run_NetOnly (m : Async Value) :
  NetOnly m ->
  forall w, cache (snd (run gw m w)) = cache w /\ status (snd (run gw m w)) = status w.
Proof.
  induction 1 as [v|e|c k _ IH|ms k _ IH]; intros w; simpl; auto.
  - destruct (IH (outcome (gw (length (calls w)) c))
                 (elapse (took (gw (length (calls w)) c)) (log_call c w))) as [-> ->].
    split; reflexivity.
  - destruct (IH (elapse ms w)) as [-> ->]. split; reflexivity.
Qed.
End RunFacts.

Lemma NetOnly_retryLoop (left : nat) (CID : string) :
  forall retryCount, NetOnly (retryLoop left CID retryCount).
Proof.
  induction left as [|left IH]; intros rc; rewrite retryLoop_unfold; cbn;
    constructor; intros [v|e]; cbn; try constructor;
    (destruct (isAuthError e) as [[|]|err]; cbn; try constructor);
    try (destruct (get_prop e "message"); cbn; constructor).
  apply IH.
Qed.

(** ** What the retry loop can come to *)

Lemma retryLoop_result (gw : Gateway) (CID : string) (left : nat) :
  forall (retryCount : nat) (w : World),
    let r := fst (run gw (retryLoop left CID retryCount) w) in
    r = Fulfilled VNull
    \/ (exists v n, r = Fulfilled v /\ outcome (gw n CID) = Fulfilled v)
    \/ (exists msg, r = Rejected (TypeError msg)).
Proof.
  induction left as [|left IH]; intros rc w;
    destruct (outcome (gw (length (calls w)) CID)) as [v|e] eqn:Hout;
    try (right; left; exists v, (length (calls w));
         rewrite (attempt_fulfilled gw CID w _ rc v Hout); split; [reflexivity | exact Hout]);
    (destruct (isAuthError e) as [[|]|err] eqn:Hauth;
     [ left; rewrite (attempt_auth gw CID w _ rc e Hout Hauth); reflexivity
     |
     | right; right; destruct (isAuthError_rejected e err Hauth) as [msg ->];
       exists msg; rewrite (attempt_throws gw CID w _ rc e _ Hout Hauth); reflexivity ]).
  - destruct e; try (left; rewrite (attempt_last gw CID w rc _ Hout Hauth); [reflexivity|discriminate]).
    right; right. eexists. simpl. rewrite Hout. reflexivity.
  - rewrite (attempt_retry gw CID w left rc e Hout Hauth). apply IH.
Qed.

(** ** The cache *)

Module LRUCacheFacts.
Import LRUCache.

Lemma find_key (k : string) (c : t) (e : Entry) : find k c = Some e -> key e = k.
Proof.
  unfold find. intros H. apply find_some in H as [_ H].
  apply String.eqb_eq, H.
Qed.

Lemma find_remove (k : string) (c : t) : find k (remove k c) = None.
Proof.
  unfold find, remove. induction c as [|e c IH]; [reflexivity|].
  cbn [filter list_filter]. destruct (String.eqb (key e) k) eqn:Hk.
  - rewrite decide_False; [exact IH|]. simpl. intros H. exact H.
  - rewrite decide_True; [|simpl; exact I]. simpl. rewrite Hk. exact IH.
Qed.

Lemma find_head (k : string) (e : Entry) (c : t) : key e = k -> find k (e :: c) = Some e.
Proof. intros <-. unfold find. simpl. rewrite String.eqb_refl. reflexivity. Qed.

(** A lookup that is a hit: the entry, still fresh, now in front. *)
Lemma get_truthy (ttl : N) (k : string) (now : N) (c : t) (v : Value) (c' : t) :
  get ttl k now c = (v, c') -> truthy v = true ->
  exists e, find k c = Some e /\ value e = v /\ stale ttl now e = false
            /\ c' = e :: remove k c.
Proof.
  unfold get. destruct (find k c) as [e|] eqn:Hf.
  - destruct (stale ttl now e) eqn:Hs; intros H Ht; inversion H; subst.
    + discriminate Ht.
    + exists e. auto.
  - intros H Ht. inversion H; subst. discriminate Ht.
Qed.

Lemma get_fresh (ttl : N) (k : string) (now : N) (c : t) (e : Entry) :
  find k c = Some e -> (now < start e + ttl)%N ->
  get ttl k now c = (value e, e :: remove k c).
Proof.
  intros Hf Hlt. unfold get. rewrite Hf. unfold stale.
  destruct (N.leb_spec (start e + ttl) now); [lia | reflexivity].
Qed.

(** What was just stored is in front, unless it was [undefined]. *)
Lemma find_set (max : nat) (k : string) (v : Value) (now : N) (c : t) :
  0 < max -> v <> VUndefined ->
  find k (set max k v now c) = Some {| key := k; value := v; start := now |}.
Proof.
  intros Hmax Hv. unfold set. destruct max as [|max]; [lia|].
  destruct v; try (exfalso; apply Hv; reflexivity);
    cbn [take]; apply find_head; reflexivity.
Qed.

Lemma find_set_undefined (max : nat) (k : string) (now : N) (c : t) :
  find k (set max k VUndefined now c) = None.
Proof. apply find_remove. Qed.

Lemma get_falsy_entry (ttl : N) (k : string) (now : N) (c : t) :
  match find k c with Some e => truthy (value e) = false | None => True end ->
  truthy (fst (get ttl k now c)) = false.
Proof.
  unfold get. destruct (find k c) as [e|]; [|reflexivity].
  intros He. destruct (stale ttl now e); [reflexivity | exact He].
Qed.

(** A lookup that came back falsy leaves a cache in which it stays so. *)
Lemma get_falsy_stays (ttl : N) (k : string) (now : N) (c : t) :
  truthy (fst (get ttl k now c)) = false ->
  forall now', truthy (fst (get ttl k now' (snd (get ttl k now c)))) = false.
Proof.
  intros Hv now'. apply get_falsy_entry. revert Hv.
  unfold get. destruct (find k c) as [e|] eqn:Hf.
  - destruct (stale ttl now e); cbn [fst snd]; intros Hv.
    + rewrite find_remove. exact I.
    + rewrite (find_head k e _ (find_key k c e Hf)). exact Hv.
  - cbn [fst snd]. rewrite Hf. intros _. exact I.
Qed.

(** Storing a falsy value leaves a cache in which lookups are falsy. *)
Lemma set_falsy (ttl : N) (max : nat) (k : string) (v : Value) (now : N) (c : t) :
  0 < max -> truthy v = false ->
  forall now', truthy (fst (get ttl k now' (set max k v now c))) = false.
Proof.
  intros Hmax Hv now'. apply get_falsy_entry.
  destruct v; try (rewrite find_set by (auto || discriminate); exact Hv).
  rewrite find_set_undefined. exact I.
Qed.

End LRUCacheFacts.

(** ** fetchCIDContent, run *)

Section RunFetchCIDContent.
Variables (gw : Gateway) (CID : string) (w : World).

Lemma do_cache_get_eq (w0 : World) :
  do_cache_get CID w0 =
  (fst (LRUCache.get DEFAULT_TTL CID (now w0) (cache w0)),
   set_cache (snd (LRUCache.get DEFAULT_TTL CID (now w0) (cache w0))) w0).
Proof. unfold do_cache_get. destruct (LRUCache.get _ _ _ _). reflexivity. Qed.

Lemma run_fetchCIDContent_empty :
  truthy (VStr CID) = false -> run gw (fetchCIDContent CID) w = (Fulfilled VNull, w).
Proof. intros H. rewrite fetchCIDContent_eq, H. reflexivity. Qed.

Lemma run_fetchCIDContent_hit :
  truthy (VStr CID) = true -> truthy (cached CID w) = true ->
  run gw (fetchCIDContent CID) w = (Fulfilled (cached CID w), after_lookup CID w).
Proof.
  intros Hcid Hhit. rewrite fetchCIDContent_eq, Hcid. cbn [negb run].
  rewrite do_cache_get_eq. change (fst _) with (cached CID w). rewrite Hhit. reflexivity.
Qed.

Lemma run_fetchCIDContent_miss :
  truthy (VStr CID) = true -> truthy (cached CID w) = false ->
  run gw (fetchCIDContent CID) w =
  run gw (after_miss DEFAULT_MAX_RETRIES CID 0) (after_lookup CID w).
Proof.
  intros Hcid Hmiss. rewrite fetchCIDContent_eq, Hcid. cbn [negb run].
  rewrite do_cache_get_eq. change (fst _) with (cached CID w). rewrite Hmiss. reflexivity.
Qed.

Lemma run_after_miss (left retryCount : nat) (w0 : World) :
  run gw (after_miss left CID retryCount) w0 =
  match run gw (retryLoop left CID retryCount) w0 with
  | (Fulfilled data, w') =>
      (Fulfilled data, do_updateStatus CID success_update (do_cache_set CID data w'))
  | (Rejected err, w') => run gw (record_error CID err) w'
  end.
Proof.
  unfold after_miss. rewrite run_try_catch, run_bind.
  destruct (run gw (retryLoop left CID retryCount) w0) as [[data|err] w']; reflexivity.
Qed.

Lemma run_record_error (msg : string) (w0 : World) :
  exists m, run gw (record_error CID (TypeError msg)) w0
            = (Fulfilled VNull, do_updateStatus CID (error_update m) w0)
            /\ nullish m = false.
Proof.
  exists (if truthy (VStr msg) then VStr msg else VStr "Unknown error").
  split; [reflexivity | destruct (truthy (VStr msg)); reflexivity].
Qed.

Lemma status_after_lookup :
  status (after_lookup CID w) !! CID
  = Some {| loading := Some true; error := Some VNull; lastUpdated := Some (now w) |}.
Proof. simpl. unfold updateStatus. rewrite lookup_insert_eq. reflexivity. Qed.

Lemma calls_after_lookup : calls (after_lookup CID w) = calls w.
Proof. reflexivity. Qed.
End RunFetchCIDContent.

(** ** Consequences for the cache and the call log *)

Section Consequences.
Variables (gw : Gateway) (CID : string).

Lemma calls_after_miss (left retryCount : nat) (w : World) :
  exists more,
    calls (snd (run gw (after_miss left CID retryCount) w)) = (calls w ++ CID :: more)%list.
Proof.
  destruct (after_miss_shape left CID retryCount) as (k & -> & _). simpl.
  destruct (run_calls_extend gw (k (outcome (gw (length (calls w)) CID)))
              (elapse (took (gw (length (calls w)) CID)) (log_call CID w))) as [more Hmore].
  exists more. rewrite Hmore. simpl. rewrite <- app_assoc. reflexivity.
Qed.

(** A call that came back falsy leaves a cache that misses. *)
Lemma falsy_result_misses (w w1 : World) (v : Value) :
  truthy (VStr CID) = true ->
  run gw (fetchCIDContent CID) w = (Fulfilled v, w1) ->
  truthy v = false ->
  misses CID (cache w1).
Proof.
  intros Hcid Hrun Hv.
  destruct (truthy (cached CID w)) eqn:Hc.
  - rewrite (run_fetchCIDContent_hit gw CID w Hcid Hc) in Hrun.
    inversion Hrun; subst. rewrite Hc in Hv. discriminate Hv.
  - rewrite (run_fetchCIDContent_miss gw CID w Hcid Hc), run_after_miss in Hrun.
    pose proof (retryLoop_result gw CID DEFAULT_MAX_RETRIES 0 (after_lookup CID w)) as Hres.
    pose proof (run_NetOnly gw _ (NetOnly_retryLoop DEFAULT_MAX_RETRIES CID 0)
                  (after_lookup CID w)) as [Hcache _].
    destruct (run gw (retryLoop DEFAULT_MAX_RETRIES CID 0) (after_lookup CID w))
      as [[data|err] w'].
    + inversion Hrun; subst. intros t. simpl.
      apply LRUCacheFacts.set_falsy; [unfold CACHE_MAX; lia | exact Hv].
    + simpl in Hres. destruct Hres as [H|[(x & n & H & _)|[msg H]]]; try discriminate H.
      injection H as ->.
      destruct (run_record_error gw CID msg w') as (m & Hm & _).
      rewrite Hm in Hrun. inversion Hrun; subst. intros t. simpl.
      simpl in Hcache. rewrite Hcache.
      apply LRUCacheFacts.get_falsy_stays. exact Hc.
Qed.

(** A transient failure on every attempt: [null], and a status that says
    neither loading nor error. *)
Lemma transient_failure_status (w : World) :
  truthy (VStr CID) = true ->
  truthy (cached CID w) = false ->
  (forall j, j <= DEFAULT_MAX_RETRIES ->
     exists e, attempt gw CID w j = Rejected e /\ nonAuthError e) ->
  exists w', run gw (fetchCIDContent CID) w = (Fulfilled VNull, w')
             /\ getError (status w') CID = VNull
             /\ isLoading (status w') CID = false.
Proof.
  intros Hcid Hc Hfail.
  rewrite (run_fetchCIDContent_miss gw CID w Hcid Hc), run_after_miss.
  destruct (retryLoop_exhausted gw CID DEFAULT_MAX_RETRIES 0 (after_lookup CID w))
    as (w' & Hrun & _); [exact Hfail|].
  pose proof (run_NetOnly gw _ (NetOnly_retryLoop DEFAULT_MAX_RETRIES CID 0)
                (after_lookup CID w)) as [_ Hstatus].
  rewrite Hrun in Hstatus |- *. simpl in Hstatus.
  eexists. split; [reflexivity|].
  unfold getError, isLoading. simpl. rewrite Hstatus.
  unfold updateStatus. rewrite !lookup_insert_eq. split; reflexivity.
Qed.

(** With errors of the declared shape the retry loop never throws. *)
Lemma retryLoop_declared (left : nat) :
  (forall n e, outcome (gw n CID) = Rejected e -> declared_shape e = true) ->
  forall retryCount w, exists v w', run gw (retryLoop left CID retryCount) w = (Fulfilled v, w').
Proof.
  intros Hshape. induction left as [|left IH]; intros rc w;
    destruct (outcome (gw (length (calls w)) CID)) as [v|e] eqn:Hout;
    try (rewrite (attempt_fulfilled gw CID w _ rc v Hout); eauto; fail);
    pose proof (isAuthError_declared e (Hshape _ _ Hout)) as Hauth;
    (destruct (auth_by_spec e);
     [rewrite (attempt_auth gw CID w _ rc e Hout Hauth); eauto|]).
  - rewrite (attempt_last gw CID w rc e Hout Hauth); eauto.
    apply declared_shape_defined, (Hshape _ _ Hout).
  - rewrite (attempt_retry gw CID w left rc e Hout Hauth). apply IH.
Qed.
End Consequences.

(** ** Tasks and pools *)

Lemma advance_TaskOk (m : Async Value) :
  Safe m -> forall n w, Suspends n m -> TaskOk n (fst (advance m w)).
Proof.
  induction 1 as [v|c u k _ IH|c k _ IH|c v k _ IH|c k Hsafe _ Hnull|ms k Hsafe _];
    intros n w Hsus; inversion Hsus; subst; simpl.
  - constructor.
  - apply IH. assumption.
  - unfold do_cache_get. destruct (LRUCache.get _ _ _ _) as [v c']. apply IH. auto.
  - apply IH. assumption.
  - constructor; assumption.
  - constructor; assumption.
Qed.


Lemma TaskOk_note_rejection (n : nat) (t : Task) :
  TaskOk n t -> note_rejection t None = None.
Proof. destruct 1; reflexivity. Qed.



Lemma resume_ok (ns : list nat) (p : Pool) (i n : nat) (m : Async Value) (w : World) :
  PoolOk ns p -> Safe m -> Suspends n m ->
  PoolOk (<[i := n]> ns) (resume i m w p).
Proof.
  intros [Htasks Hrej] Hsafe Hsus. unfold resume.
  pose proof (advance_TaskOk m Hsafe n w Hsus) as Ht.
  destruct (advance m w) as [t w']. simpl in Ht. split; simpl.
  - apply Forall2_insert; assumption.
  - rewrite Hrej. apply (TaskOk_note_rejection n t Ht).
Qed.

Lemma deliver_ok (ev : Event) (ns : list nat) (p : Pool) :
  PoolOk ns p -> exists ns', PoolOk ns' (deliver ev p).
Proof.
  intros Hok. pose proof Hok as [Htasks Hrej]. unfold deliver.
  destruct (tasks p !! target ev) as [[k|due k|r]|] eqn:Hi;
    try (exists ns; split; [exact Htasks | exact Hrej]).
  - destruct (Forall2_lookup_r _ _ _ _ _ Htasks Hi) as (n & _ & Hn).
    inversion Hn; subst. eexists. apply resume_ok; eauto.
  - destruct (due <=? now (elapse (after ev) (world p)))%N;
      [|exists ns; split; [exact Htasks | exact Hrej]].
    destruct (Forall2_lookup_r _ _ _ _ _ Htasks Hi) as (n & _ & Hn).
    inversion Hn; subst. eexists. apply resume_ok; eauto.
Qed.

Lemma event_loop_ok (evs : list Event) :
  forall ns p, PoolOk ns p -> exists ns', PoolOk ns' (event_loop evs p).
Proof.
  induction evs as [|ev evs IH]; intros ns p Hok; simpl; [eauto|].
  destruct (deliver_ok ev ns p Hok) as [ns' Hok']. apply (IH ns' _ Hok').
Qed.

Lemma dispatch_ok (CIDs : list string) :
  forall ns p, PoolOk ns p ->
    PoolOk (ns ++ replicate (length CIDs) (2 * DEFAULT_MAX_RETRIES + 1)) (dispatch CIDs p).
Proof.
  induction CIDs as [|cid rest IH]; intros ns p [Htasks Hrej]; simpl dispatch.
  - simpl. rewrite app_nil_r. split; assumption.
  - pose proof (advance_TaskOk (fetchCIDContent cid) (Safe_fetchCIDContent cid) _ (world p)
                  (Suspends_fetchCIDContent cid)) as Ht.
    destruct (advance (fetchCIDContent cid) (world p)) as [t w']. simpl in Ht.
    change (length (cid :: rest)) with (S (length rest)).
    rewrite replicate_S, cons_middle, app_assoc.
    apply IH. split; simpl.
    + apply Forall2_app; [exact Htasks | repeat constructor; exact Ht].
    + rewrite Hrej. apply (TaskOk_note_rejection _ t Ht).
Qed.





(** ** Every pool settles *)









Lemma start_pool_ok (w : World) : PoolOk [] (start_pool w).
Proof. split; [constructor | reflexivity]. Qed.

Lemma fetchMultipleCIDs_ok (CIDs : list string) (w : World) (evs : list Event) :
  exists ns, PoolOk ns (fetchMultipleCIDs CIDs w evs).
Proof.
  unfold fetchMultipleCIDs.
  apply (event_loop_ok evs _ _ (dispatch_ok CIDs [] (start_pool w) (start_pool_ok w))).
Qed.



(** ** Awaiting a call is one run of the event loop *)

Lemma awaiting_is_a_schedule (gw : Gateway) (m : Async Value) :
  forall w,
    event_loop (awaited gw m w) (spawn m w)
    = {| tasks := [Done (fst (run gw m w))];
         rejection := note_rejection (Done (fst (run gw m w))) None;
         world := snd (run gw m w) |}.
Proof.
  induction m as [a|e|c u k IH|c k IH|c v k IH|c k IH|ms k IH]; intros w.
  - reflexivity.
  - reflexivity.
  - apply (IH (do_updateStatus c u w)).
  - unfold spawn. simpl. destruct (do_cache_get c w) as [v w']. apply (IH v w').
  - apply (IH (do_cache_set c v w)).
  - simpl. rewrite <- IH. reflexivity.
  - simpl. rewrite <- IH. unfold deliver, spawn. simpl.
    rewrite N.leb_refl. reflexivity.
Qed.

Lemma dispatch_one (CID : string) (w : World) :
  dispatch [CID] (start_pool w) = spawn (fetchCIDContent CID) w.
Proof.
  unfold spawn. simpl. destruct (advance (fetchCIDContent CID) w) as [t w']. reflexivity.
Qed.

(** For a single CID, [fetchMultipleCIDs] gives what [fetchCIDContent]
    gives a caller that awaits it. *)
Lemma fetchMultipleCIDs_one (gw : Gateway) (CID : string) (w : World) (v : Value) :
  fst (run gw (fetchCIDContent CID) w) = Fulfilled v ->
  promise_all (fetchMultipleCIDs [CID] w (awaited gw (fetchCIDContent CID) w))
  = Some (Fulfilled [v]).
Proof.
  intros Hv. unfold fetchMultipleCIDs.
  rewrite dispatch_one, awaiting_is_a_schedule, Hv. reflexivity.
Qed.

(** ** More on the retry loop: calls, time, classification *)

Lemma attempt_last_world (gw : Gateway) (CID : string) (w : World) (retryCount : nat) (e : Value) :
  outcome (gw (length (calls w)) CID) = Rejected e ->
  isAuthError e = Fulfilled false ->
  snd (run gw (retryLoop 0 CID retryCount) w) = after_call gw CID w.
Proof.
  intros He Hauth. rewrite retryLoop_unfold. cbn. rewrite He. cbn. rewrite Hauth. cbn.
  destruct (get_prop e "message"); reflexivity.
Qed.

Lemma retryLoop_calls (gw : Gateway) (CID : string) (left : nat) :
  forall retryCount w,
    exists k, 1 <= k <= S left
              /\ calls (snd (run gw (retryLoop left CID retryCount) w))
                 = (calls w ++ replicate k CID)%list.
Proof.
  induction left as [|left IH]; intros rc w;
    destruct (outcome (gw (length (calls w)) CID)) as [v|e] eqn:Hout;
    try (exists 1; split; [lia|];
         rewrite (attempt_fulfilled gw CID w _ rc v Hout); reflexivity);
    (destruct (isAuthError e) as [[|]|err] eqn:Hauth;
     [ exists 1; split; [lia|]; rewrite (attempt_auth gw CID w _ rc e Hout Hauth); reflexivity
     |
     | exists 1; split; [lia|];
       rewrite (attempt_throws gw CID w _ rc e err Hout Hauth); reflexivity ]).
  - exists 1. split; [lia|]. rewrite (attempt_last_world gw CID w rc e Hout Hauth). reflexivity.
  - rewrite (attempt_retry gw CID w left rc e Hout Hauth).
    destruct (IH (rc + 1) (elapse (RETRY_DELAY * N.of_nat (rc + 1)) (after_call gw CID w)))
      as (k & Hk & Hcalls).
    exists (S k). split; [lia|]. rewrite Hcalls. simpl. rewrite <- app_assoc. reflexivity.
Qed.

Lemma isAuthError_primitive (e : Value) :
  primitive e = true -> isAuthError e = Fulfilled false.
Proof. destruct e; try discriminate; reflexivity. Qed.

Lemma isAuthError_unclassifiable (e : Value) :
  unclassifiable e = true -> exists msg, isAuthError e = Rejected (TypeError msg).
Proof.
  destruct e as [| | | | |fields]; try discriminate; intros H.
  - eexists. reflexivity.
  - unfold isAuthError, or_else. cbn [opt_prop].
    simpl in H. destruct (lookup_field "message" fields) as [[| | | | |]|];
      try discriminate H; eexists; reflexivity.
Qed.


(** ** More on the status mapping *)

Lemma updateStatus_persists (CID c : string) (u : FetchStatus) (t : N)
    (prev : gmap string FetchStatus) :
  is_Some (prev !! c) -> is_Some (updateStatus CID u t prev !! c).
Proof.
  intros Hc. unfold updateStatus. destruct (decide (CID = c)) as [->|Hne].
  - rewrite lookup_insert_eq. eauto.
  - rewrite lookup_insert_ne by exact Hne. exact Hc.
Qed.

Lemma updateStatus_present (CID : string) (u : FetchStatus) (t : N)
    (prev : gmap string FetchStatus) :
  is_Some (updateStatus CID u t prev !! CID).
Proof. unfold updateStatus. rewrite lookup_insert_eq. eauto. Qed.

Lemma updateStatus_complete (CID : string) (u : FetchStatus) (t : N)
    (prev : gmap string FetchStatus) :
  StatusComplete prev ->
  (is_Some (loading u) /\ is_Some (error u)) \/ is_Some (prev !! CID) ->
  StatusComplete (updateStatus CID u t prev).
Proof.
  intros Hprev Hu c e. unfold updateStatus. destruct (decide (CID = c)) as [<-|Hne].
  - rewrite lookup_insert_eq. intros He. injection He as <-. simpl.
    split; [|split; [|eauto]].
    + destruct (loading u) as [b|] eqn:Hl; [eauto|].
      destruct Hu as [[[x Hx] _]|[e0 He0]]; [discriminate Hx|].
      rewrite He0. simpl. apply (Hprev CID e0 He0).
    + destruct (error u) as [b|] eqn:Hl; [eauto|].
      destruct Hu as [[_ [x Hx]]|[e0 He0]]; [discriminate Hx|].
      rewrite He0. simpl. apply (Hprev CID e0 He0).
  - rewrite lookup_insert_ne by exact Hne. apply Hprev.
Qed.

Lemma run_status_persists (gw : Gateway) (c : string) (m : Async Value) :
  forall w, is_Some (status w !! c) -> is_Some (status (snd (run gw m w)) !! c).
Proof.
  induction m as [a|e|cid u k IH|cid k IH|cid v k IH|cid k IH|ms k IH]; intros w Hc; simpl;
    try exact Hc.
  - apply IH. simpl. apply updateStatus_persists, Hc.
  - unfold do_cache_get. destruct (LRUCache.get _ _ _ _) as [v c']. apply IH. exact Hc.
  - apply IH. exact Hc.
  - apply IH. exact Hc.
  - apply IH. exact Hc.
Qed.

(** ** fetchCIDContent after a miss, by how the retry loop ended *)

Section AfterMissRun.
Variables (gw : Gateway) (CID : string) (w : World).
Hypothesis Hcid : truthy (VStr CID) = true.
Hypothesis Hmiss : truthy (cached CID w) = false.

Lemma run_miss_fulfilled (data : Value) (w1 : World) :
  run gw (fetchWithRetry CID 0) (after_lookup CID w) = (Fulfilled data, w1) ->
  run gw (fetchCIDContent CID) w
  = (Fulfilled data, do_updateStatus CID success_update (do_cache_set CID data w1))
  /\ status w1 = status (after_lookup CID w)
  /\ cache w1 = cache (after_lookup CID w).
Proof.
  intros Hrun. unfold fetchWithRetry in Hrun. change (DEFAULT_MAX_RETRIES - 0) with 2 in Hrun.
  pose proof (run_NetOnly gw _ (NetOnly_retryLoop 2 CID 0) (after_lookup CID w)) as [Hc Hs].
  rewrite Hrun in Hc, Hs. simpl in Hc, Hs.
  rewrite (run_fetchCIDContent_miss gw CID w Hcid Hmiss), run_after_miss.
  change DEFAULT_MAX_RETRIES with 2. rewrite Hrun. auto.
Qed.

Lemma run_miss_rejected (err : Value) (w1 : World) :
  run gw (fetchWithRetry CID 0) (after_lookup CID w) = (Rejected err, w1) ->
  exists msg,
    err = TypeError msg
    /\ run gw (fetchCIDContent CID) w
       = (Fulfilled VNull,
          do_updateStatus CID
            (error_update (if truthy (VStr msg) then VStr msg else VStr "Unknown error")) w1)
    /\ status w1 = status (after_lookup CID w)
    /\ cache w1 = cache (after_lookup CID w).
Proof.
  intros Hrun. unfold fetchWithRetry in Hrun. change (DEFAULT_MAX_RETRIES - 0) with 2 in Hrun.
  pose proof (run_NetOnly gw _ (NetOnly_retryLoop 2 CID 0) (after_lookup CID w)) as [Hc Hs].
  pose proof (retryLoop_result gw CID 2 0 (after_lookup CID w)) as Hres.
  rewrite Hrun in Hc, Hs, Hres. simpl in Hc, Hs, Hres.
  destruct Hres as [H|[(x & n & H & _)|[msg H]]]; try discriminate H.
  injection H as ->. exists msg. split; [reflexivity|].
  rewrite (run_fetchCIDContent_miss gw CID w Hcid Hmiss), run_after_miss.
  change DEFAULT_MAX_RETRIES with 2. rewrite Hrun. auto.
Qed.
End AfterMissRun.

(** ** Lookups do not disturb one another *)

Module LRUCacheMore.
Import LRUCache.

Lemma fst_get (ttl : N) (c : string) (now : N) (l : t) :
  fst (get ttl c now l)
  = match find c l with
    | Some e => if stale ttl now e then VUndefined else value e
    | None => VUndefined
    end.
Proof. unfold get. destruct (find c l) as [e|]; [destruct (stale ttl now e)|]; reflexivity. Qed.

Lemma find_remove_ne (c k : string) (l : t) : c <> k -> find c (remove k l) = find c l.
Proof.
  intros Hne. unfold find, remove. induction l as [|e l IH]; [reflexivity|].
  cbn [filter list_filter]. destruct (String.eqb (key e) k) eqn:Hk.
  - rewrite decide_False by (simpl; intros H; exact H).
    apply String.eqb_eq in Hk. cbn [List.find].
    destruct (String.eqb (key e) c) eqn:Hc; [|exact IH].
    apply String.eqb_eq in Hc. congruence.
  - rewrite decide_True by (simpl; exact I). cbn [List.find].
    destruct (String.eqb (key e) c); [reflexivity | exact IH].
Qed.

Lemma find_cons_ne (c : string) (e : Entry) (l : t) :
  key e <> c -> find c (e :: l) = find c l.
Proof.
  intros Hne. unfold find. simpl. destruct (String.eqb (key e) c) eqn:Hc; [|reflexivity].
  apply String.eqb_eq in Hc. contradiction.
Qed.

(** A lookup, at the same time, after a lookup of any key gives what it
    would have given before. *)
Lemma get_get_stable (ttl : N) (k c : string) (now : N) (l : t) :
  fst (get ttl c now (snd (get ttl k now l))) = fst (get ttl c now l).
Proof.
  rewrite !fst_get. unfold get at 1.
  destruct (find k l) as [e|] eqn:Hk; [|reflexivity].
  pose proof (LRUCacheFacts.find_key k l e Hk) as Hkey.
  destruct (String.eqb_spec c k) as [->|Hne].
  - destruct (stale ttl now e) eqn:Hs; cbn [snd].
    + rewrite LRUCacheFacts.find_remove, Hk, Hs. reflexivity.
    + rewrite (LRUCacheFacts.find_head k e _ Hkey), Hk. reflexivity.
  - destruct (stale ttl now e) eqn:Hs; cbn [snd].
    + rewrite (find_remove_ne c k l Hne). reflexivity.
    + rewrite find_cons_ne by congruence. rewrite (find_remove_ne c k l Hne). reflexivity.
Qed.

End LRUCacheMore.

(** ** Dispatch *)

Lemma same_lookups_refl (w : World) : same_lookups w w.
Proof. split; reflexivity. Qed.

Lemma cached_after_lookup (CID c : string) (w : World) :
  cached c (after_lookup CID w) = cached c w.
Proof. unfold cached. simpl. apply LRUCacheMore.get_get_stable. Qed.

(** One call started: where it stands, the call it logs, and the lookups
    it leaves as they were. *)
Lemma advance_fetchCIDContent (CID : string) (w : World) :
  dispatched_as w CID (fst (advance (fetchCIDContent CID) w))
  /\ calls (snd (advance (fetchCIDContent CID) w))
     = (calls w ++ if goes_to_gateway w CID then [CID] else [])%list
  /\ same_lookups w (snd (advance (fetchCIDContent CID) w)).
Proof.
  unfold dispatched_as, settled_at_once, goes_to_gateway. rewrite fetchCIDContent_eq.
  destruct (truthy (VStr CID)) eqn:Hcid; cbn [negb andb].
  2: { simpl. rewrite app_nil_r. repeat split. }
  cbn [advance]. unfold do_cache_get.
  change (LRUCache.get DEFAULT_TTL CID (now (do_updateStatus CID loading_update w))
            (cache (do_updateStatus CID loading_update w)))
    with (LRUCache.get DEFAULT_TTL CID (now w) (cache w)).
  pose proof (fun c => cached_after_lookup CID c w) as Hstable.
  unfold after_lookup in Hstable. fold (cached CID w).
  unfold cached at 1 2 3 4.
  destruct (LRUCache.get DEFAULT_TTL CID (now w) (cache w)) as [v c'] eqn:Hget.
  cbn [fst snd] in *.
  destruct (truthy v) eqn:Hv; cbn [negb advance fst snd].
  - simpl. rewrite app_nil_r. repeat split. intros c. apply Hstable.
  - destruct (after_miss_shape DEFAULT_MAX_RETRIES CID 0) as (k & -> & _).
    cbn [advance fst snd]. repeat split. intros c. apply (Hstable c).
Qed.

Lemma dispatch_as_lookups (CIDs : list string) (w0 : World) :
  forall p, same_lookups w0 (world p) ->
    exists ts,
      tasks (dispatch CIDs p) = (tasks p ++ ts)%list
      /\ Forall2 (dispatched_as w0) CIDs ts
      /\ calls (world (dispatch CIDs p))
         = (calls (world p) ++ List.filter (goes_to_gateway w0) CIDs)%list
      /\ same_lookups w0 (world (dispatch CIDs p)).
Proof.
  induction CIDs as [|cid rest IH]; intros p Hsame.
  - exists []. simpl. rewrite !app_nil_r. repeat split; [constructor | apply Hsame..].
  - simpl dispatch.
    destruct (advance_fetchCIDContent cid (world p)) as (Has & Hcalls & Hsame1).
    destruct (advance (fetchCIDContent cid) (world p)) as [t w1]. cbn [fst snd] in *.
    assert (goes_to_gateway (world p) cid = goes_to_gateway w0 cid) as Hgo.
    { unfold goes_to_gateway. rewrite (proj2 Hsame cid). reflexivity. }
    assert (settled_at_once (world p) cid = settled_at_once w0 cid) as Hset.
    { unfold settled_at_once. rewrite (proj2 Hsame cid). reflexivity. }
    assert (same_lookups w0 w1) as Hsame01.
    { destruct Hsame as [Hn Hc], Hsame1 as [Hn1 Hc1]. split; [congruence|].
      intros c. rewrite Hc1. apply Hc. }
    destruct (IH {| tasks := tasks p ++ [t];
                    rejection := note_rejection t (rejection p);
                    world := w1 |} Hsame01) as (ts & Hts & Hall & Hcs & Hsame2).
    exists (t :: ts). cbn [tasks world] in *. split; [|split; [|split]].
    + rewrite Hts, <- app_assoc. reflexivity.
    + constructor; [|exact Hall]. unfold dispatched_as in *. rewrite <- Hset, <- Hgo. exact Has.
    + rewrite Hcs, Hcalls, Hgo. simpl. destruct (goes_to_gateway w0 cid); simpl;
        rewrite <- app_assoc; reflexivity.
    + exact Hsame2.
Qed.

(** ** The status mapping under the event loop *)

Lemma advance_status_persists (c : string) (m : Async Value) :
  forall w, is_Some (status w !! c) -> is_Some (status (snd (advance m w)) !! c).
Proof.
  induction m as [a|e|cid u k IH|cid k IH|cid v k IH|cid k IH|ms k IH]; intros w Hc; simpl;
    try exact Hc.
  - apply IH. simpl. apply updateStatus_persists, Hc.
  - unfold do_cache_get. destruct (LRUCache.get _ _ _ _) as [v c']. apply IH. exact Hc.
  - apply IH. exact Hc.
Qed.

Lemma advance_UpdatesOnly (CID : string) (m : Async Value) :
  UpdatesOnly CID m ->
  forall w,
    TaskUpdates CID (fst (advance m w))
    /\ forall other, CID <> other -> status (snd (advance m w)) !! other = status w !! other.
Proof.
  induction 1 as [v|e|u k _ IH|c k _ IH|c v k _ IH|c k Hk _|ms k Hk _]; intros w; simpl;
    try (split; [assumption || exact I | reflexivity]).
  - destruct (IH (do_updateStatus CID u w)) as [Ht Hs]. split; [exact Ht|].
    intros other Hne. rewrite (Hs other Hne). simpl. unfold updateStatus.
    apply lookup_insert_ne, Hne.
  - unfold do_cache_get. destruct (LRUCache.get _ _ _ _) as [v c'].
    exact (IH v (set_cache c' w)).
  - exact (IH (do_cache_set c v w)).
Qed.

Lemma deliver_status_persists (c : string) (ev : Event) (p : Pool) :
  is_Some (status (world p) !! c) -> is_Some (status (world (deliver ev p)) !! c).
Proof.
  intros Hc. unfold deliver, resume.
  destruct (tasks p !! target ev) as [[k|due k|r]|]; try exact Hc.
  - pose proof (advance_status_persists c (k (reply ev)) (elapse (after ev) (world p)) Hc) as H.
    destruct (advance _ _) as [t w']. exact H.
  - destruct (due <=? _)%N; [|exact Hc].
    pose proof (advance_status_persists c k (elapse (after ev) (world p)) Hc) as H.
    destruct (advance _ _) as [t w']. exact H.
Qed.

Lemma deliver_updates (cs : list string) (ev : Event) (p : Pool) :
  Forall2 TaskUpdates cs (tasks p) ->
  Forall2 TaskUpdates cs (tasks (deliver ev p))
  /\ forall other, other ∉ cs ->
       status (world (deliver ev p)) !! other = status (world p) !! other.
Proof.
  intros Hall. unfold deliver, resume.
  destruct (tasks p !! target ev) as [[k|due k|r]|] eqn:Hi;
    try (split; [exact Hall | reflexivity]).
  - destruct (Forall2_lookup_r _ _ _ _ _ Hall Hi) as (cid & Hcid & Hk). simpl in Hk.
    destruct (advance_UpdatesOnly cid _ (Hk (reply ev)) (elapse (after ev) (world p)))
      as [Ht Hs].
    destruct (advance _ _) as [t w']. cbn [fst snd tasks world] in *. split.
    + rewrite <- (list_insert_id cs (target ev) cid Hcid).
      apply Forall2_insert; assumption.
    + intros other Hother. apply Hs. intros ->. apply Hother.
      apply list_elem_of_lookup. eauto.
  - destruct (due <=? _)%N; [|split; [exact Hall | reflexivity]].
    destruct (Forall2_lookup_r _ _ _ _ _ Hall Hi) as (cid & Hcid & Hk). simpl in Hk.
    destruct (advance_UpdatesOnly cid _ Hk (elapse (after ev) (world p))) as [Ht Hs].
    destruct (advance _ _) as [t w']. cbn [fst snd tasks world] in *. split.
    + rewrite <- (list_insert_id cs (target ev) cid Hcid).
      apply Forall2_insert; assumption.
    + intros other Hother. apply Hs. intros ->. apply Hother.
      apply list_elem_of_lookup. eauto.
Qed.

Lemma event_loop_updates (cs : list string) (evs : list Event) :
  forall p, Forall2 TaskUpdates cs (tasks p) ->
    (forall other, other ∉ cs ->
       status (world (event_loop evs p)) !! other = status (world p) !! other)
    /\ (forall c, is_Some (status (world p) !! c) ->
          is_Some (status (world (event_loop evs p)) !! c)).
Proof.
  induction evs as [|ev evs IH]; intros p Hall; simpl; [split; auto|].
  destruct (deliver_updates cs ev p Hall) as [Hall' Hs].
  destruct (IH (deliver ev p) Hall') as [Hframe Hpers]. split.
  - intros other Hother. rewrite (Hframe other Hother). apply Hs, Hother.
  - intros c Hc. apply Hpers, deliver_status_persists, Hc.
Qed.

Lemma dispatch_updates (CIDs : list string) :
  forall cs p, Forall2 TaskUpdates cs (tasks p) ->
    Forall2 TaskUpdates (cs ++ CIDs) (tasks (dispatch CIDs p))
    /\ (forall other, other ∉ CIDs ->
          status (world (dispatch CIDs p)) !! other = status (world p) !! other)
    /\ (forall c, is_Some (status (world p) !! c) ->
          is_Some (status (world (dispatch CIDs p)) !! c)).
Proof.
  induction CIDs as [|cid rest IH]; intros cs p Hall; simpl dispatch.
  - rewrite app_nil_r. split; [exact Hall|]. split; auto.
  - destruct (advance_UpdatesOnly cid _ (UpdatesOnly_fetchCIDContent cid) (world p))
      as [Ht Hs].
    pose proof (fun c => advance_status_persists c (fetchCIDContent cid) (world p)) as Hp.
    destruct (advance (fetchCIDContent cid) (world p)) as [t w1]. cbn [fst snd] in *.
    destruct (IH (cs ++ [cid])%list {| tasks := tasks p ++ [t];
                                  rejection := note_rejection t (rejection p);
                                  world := w1 |}) as (Hall' & Hframe & Hpers).
    { cbn [tasks]. apply Forall2_app; [exact Hall | repeat constructor; exact Ht]. }
    cbn [world] in *. split; [|split].
    + rewrite cons_middle, app_assoc. exact Hall'.
    + intros other Hother. rewrite Hframe.
      * apply Hs. intros ->. apply Hother. left.
      * intros Hin. apply Hother. right. exact Hin.
    + intros c Hc. apply Hpers, Hp, Hc.
Qed.

Lemma dispatched_all_settled (w : World) (CIDs : list string) (ts : list Task) :
  Forall2 (dispatched_as w) CIDs ts ->
  Forall (fun c => goes_to_gateway w c = false) CIDs ->
  exists vs,
    Forall2 (fun t v => fulfilled_value t = Some v) ts vs
    /\ Forall2 (fun c v => settled_at_once w c = Some v) CIDs vs.
Proof.
  induction 1 as [|c t CIDs ts [Hval _] _ IH]; intros Hno.
  - exists []. split; constructor.
  - inversion Hno as [|? ? Hc Hrest]; subst.
    destruct (IH Hrest) as (vs & Hts & Hcs).
    assert (exists v, settled_at_once w c = Some v) as [v Hv].
    { unfold settled_at_once, goes_to_gateway in *.
      destruct (truthy (VStr c)); cbn [negb andb] in *; [|eauto].
      destruct (truthy (cached c w)); [eauto | discriminate Hc]. }
    exists (v :: vs). split; constructor; try assumption. rewrite Hval. exact Hv.
Qed.

(** ** Counting the gateway calls of a pool *)

Lemma CallsAtMost_mono (CID : string) (n n' : nat) (m : Async Value) :
  CallsAtMost CID n m -> n <= n' -> CallsAtMost CID n' m.
Proof.
  intros H. revert n'.
  induction H as [n v|n e|n c u k _ IH|n c k _ IH|n c v k _ IH|n k _ IH|n ms k _ IH];
    intros n' Hle; try (constructor; auto; fail).
  destruct n' as [|n']; [lia|]. constructor. intros r. apply IH. lia.
Qed.

Lemma CallsAtMost_after_miss (CID : string) (left : nat) :
  forall retryCount, CallsAtMost CID (S left) (after_miss left CID retryCount).
Proof.
  induction left as [|left IH]; intros rc;
    match goal with
    | |- context [after_miss ?l CID rc] =>
        destruct (after_miss_shape l CID rc) as (k & -> & Hk)
    end;
    constructor; intros r; rewrite Hk;
    (destruct r as [v|e]; [repeat constructor|]);
    match goal with
    | |- context [on_reply ?l CID rc (Rejected e)] =>
        destruct (on_reply_rejected CID l rc e) as [->|[[m ->]|(left' & Hl & ->)]]
    end;
    repeat constructor; try discriminate Hl.
  injection Hl as <-. apply IH.
Qed.

Lemma CallsAtMost_fetchCIDContent (CID : string) :
  CallsAtMost CID (DEFAULT_MAX_RETRIES + 1) (fetchCIDContent CID).
Proof.
  rewrite fetchCIDContent_eq. destruct (negb (truthy (VStr CID))); [constructor|].
  constructor. constructor. intros v.
  destruct (truthy v); [constructor|].
  replace (DEFAULT_MAX_RETRIES + 1) with (S DEFAULT_MAX_RETRIES) by reflexivity.
  apply CallsAtMost_after_miss.
Qed.

(** One step of a program: it logs at most one call, for its CID, and what
    it has left is that much less. *)
Lemma advance_CallsAtMost (CID : string) (n : nat) (m : Async Value) :
  CallsAtMost CID n m ->
  forall w, exists b j,
    j + b <= n
    /\ TaskCalls (CID, b) (fst (advance m w))
    /\ calls (snd (advance m w)) = (calls w ++ replicate j CID)%list.
Proof.
  induction 1 as [n v|n e|n c u k _ IH|n c k _ IH|n c v k _ IH|n k Hk _|n ms k Hk _];
    intros w; simpl.
  - exists 0, 0. rewrite app_nil_r. repeat split. lia.
  - exists 0, 0. rewrite app_nil_r. repeat split. lia.
  - exact (IH (do_updateStatus c u w)).
  - unfold do_cache_get. destruct (LRUCache.get _ _ _ _) as [v c']. exact (IH v (set_cache c' w)).
  - exact (IH (do_cache_set c v w)).
  - exists n, 1. split; [lia|]. split; [exact Hk | reflexivity].
  - exists n, 0. rewrite app_nil_r. split; [lia|]. split; [exact Hk | reflexivity].
Qed.

Lemma sum_list_insert_snd (cbs : list (string * nat)) :
  forall i c b b',
    cbs !! i = Some (c, b) ->
    sum_list ((<[i := (c, b')]> cbs).*2) + b = sum_list (cbs.*2) + b'.
Proof.
  induction cbs as [|x cbs IH]; intros i c b b' Hi; [discriminate Hi|].
  destruct i as [|i].
  - injection Hi as ->. simpl. lia.
  - specialize (IH i c b b' Hi).
    change (<[S i := (c, b')]> (x :: cbs)) with (x :: <[i := (c, b')]> cbs).
    rewrite !fmap_cons. cbn [sum_list]. lia.
Qed.

Lemma occurrences_app (c : string) (l k : list string) :
  occurrences c (l ++ k) = occurrences c l + occurrences c k.
Proof. unfold occurrences. rewrite List.filter_app, length_app. reflexivity. Qed.

Lemma occurrences_replicate (c c' : string) (j : nat) :
  occurrences c (replicate j c') = if String.eqb c c' then j else 0.
Proof.
  unfold occurrences. induction j as [|j IH]; simpl.
  - destruct (String.eqb c c'); reflexivity.
  - destruct (String.eqb c c'); simpl; rewrite IH; reflexivity.
Qed.

Lemma occurrences_elem_of (c : string) (l : list string) :
  0 < occurrences c l -> c ∈ l.
Proof.
  unfold occurrences. induction l as [|x l IH]; simpl; [lia|].
  destruct (String.eqb_spec c x) as [->|Hne]; intros H.
  - left.
  - right. apply IH, H.
Qed.

Lemma entries_fst (c : string) (cbs : list (string * nat)) :
  entries c cbs = occurrences c (cbs.*1).
Proof.
  unfold occurrences. induction cbs as [|[c' b] cbs IH]; [reflexivity|].
  simpl. rewrite IH. destruct (String.eqb c c'); reflexivity.
Qed.

Lemma entries_snoc (c cid : string) (b : nat) (cbs : list (string * nat)) :
  entries c (cbs ++ [(cid, b)]) = entries c cbs + if String.eqb c cid then 1 else 0.
Proof. induction cbs as [|[c' b'] cbs IH]; simpl; [lia | rewrite IH; lia]. Qed.

Lemma budget_snoc (c cid : string) (b : nat) (cbs : list (string * nat)) :
  budget c (cbs ++ [(cid, b)]) = budget c cbs + if String.eqb c cid then b else 0.
Proof. induction cbs as [|[c' b'] cbs IH]; simpl; [lia | rewrite IH; lia]. Qed.

Lemma entries_insert (c : string) (cbs : list (string * nat)) :
  forall i c0 b b',
    cbs !! i = Some (c0, b) -> entries c (<[i := (c0, b')]> cbs) = entries c cbs.
Proof.
  induction cbs as [|[c' x] cbs IH]; intros i c0 b b' Hi; [discriminate Hi|].
  destruct i as [|i].
  - injection Hi as -> ->. reflexivity.
  - change (<[S i := (c0, b')]> ((c', x) :: cbs)) with ((c', x) :: <[i := (c0, b')]> cbs).
    simpl. rewrite (IH i c0 b b' Hi). reflexivity.
Qed.

Lemma budget_insert (c : string) (cbs : list (string * nat)) :
  forall i c0 b b',
    cbs !! i = Some (c0, b) ->
    budget c (<[i := (c0, b')]> cbs) + (if String.eqb c c0 then b else 0)
    = budget c cbs + (if String.eqb c c0 then b' else 0).
Proof.
  induction cbs as [|[c' x] cbs IH]; intros i c0 b b' Hi; [discriminate Hi|].
  destruct i as [|i].
  - injection Hi as -> ->. simpl. lia.
  - change (<[S i := (c0, b')]> ((c', x) :: cbs)) with ((c', x) :: <[i := (c0, b')]> cbs).
    simpl. specialize (IH i c0 b b' Hi). lia.
Qed.

Lemma fst_insert (cbs : list (string * nat)) (i : nat) (c0 : string) (b b' : nat) :
  cbs !! i = Some (c0, b) -> (<[i := (c0, b')]> cbs).*1 = cbs.*1.
Proof.
  intros Hi. rewrite list_fmap_insert. simpl. apply list_insert_id.
  rewrite list_lookup_fmap, Hi. reflexivity.
Qed.

Lemma resume_calls (base : list string) (cbs : list (string * nat)) (p : Pool)
    (i : nat) (c : string) (b : nat) (m : Async Value) (w : World) :
  PoolCalls base cbs p ->
  cbs !! i = Some (c, b) ->
  calls w = calls (world p) ->
  CallsAtMost c b m ->
  exists cbs', cbs'.*1 = cbs.*1 /\ PoolCalls base cbs' (resume i m w p).
Proof.
  intros (Htasks & extra & Hcalls & Heach & Hsum) Hi Hw Hm.
  destruct (advance_CallsAtMost c b m Hm w) as (b' & j & Hj & Ht & Hlog).
  unfold resume. destruct (advance m w) as [t w']. cbn [fst snd] in *.
  exists (<[i := (c, b')]> cbs). split; [apply (fst_insert cbs i c b b' Hi)|]. split.
  - cbn [tasks]. apply Forall2_insert; assumption.
  - exists (extra ++ replicate j c)%list. cbn [world]. split; [|split].
    + rewrite Hlog, Hw, Hcalls, app_assoc. reflexivity.
    + intros c1. rewrite occurrences_app, occurrences_replicate.
      rewrite (entries_insert c1 cbs i c b b' Hi).
      pose proof (budget_insert c1 cbs i c b b' Hi) as Hb.
      specialize (Heach c1). destruct (String.eqb c1 c); lia.
    + pose proof (sum_list_insert_snd cbs i c b b' Hi) as Hs.
      rewrite length_app, length_replicate, length_insert. lia.
Qed.

Lemma deliver_calls (base : list string) (ev : Event) (cbs : list (string * nat))
    (p : Pool) :
  PoolCalls base cbs p ->
  exists cbs', cbs'.*1 = cbs.*1 /\ PoolCalls base cbs' (deliver ev p).
Proof.
  intros Hok. pose proof Hok as (Htasks & Hrest). unfold deliver.
  destruct (tasks p !! target ev) as [[k|due k|r]|] eqn:Hi;
    try (exists cbs; split; [reflexivity | split; [exact Htasks | exact Hrest]]).
  - destruct (Forall2_lookup_r _ _ _ _ _ Htasks Hi) as ([c b] & Hcb & Hk). simpl in Hk.
    apply (resume_calls base cbs p _ c b _ (elapse (after ev) (world p)) Hok Hcb eq_refl
             (Hk (reply ev))).
  - destruct (due <=? _)%N;
      [|exists cbs; split; [reflexivity | split; [exact Htasks | exact Hrest]]].
    destruct (Forall2_lookup_r _ _ _ _ _ Htasks Hi) as ([c b] & Hcb & Hk). simpl in Hk.
    apply (resume_calls base cbs p _ c b _ (elapse (after ev) (world p)) Hok Hcb eq_refl Hk).
Qed.

Lemma event_loop_calls (base : list string) (evs : list Event) :
  forall cbs p, PoolCalls base cbs p ->
    exists cbs', cbs'.*1 = cbs.*1 /\ PoolCalls base cbs' (event_loop evs p).
Proof.
  induction evs as [|ev evs IH]; intros cbs p Hok; simpl; [eauto|].
  destruct (deliver_calls base ev cbs p Hok) as (cbs' & Hfst & Hok').
  destruct (IH cbs' _ Hok') as (cbs'' & Hfst' & Hok'').
  exists cbs''. split; [congruence | exact Hok''].
Qed.

Lemma dispatch_calls (base : list string) (rest : list string) :
  forall cbs p,
    PoolCalls base cbs p ->
    exists cbs', cbs'.*1 = (cbs.*1 ++ rest)%list /\ PoolCalls base cbs' (dispatch rest p).
Proof.
  induction rest as [|cid rest IH]; intros cbs p Hok; simpl dispatch.
  { exists cbs. rewrite app_nil_r. split; [reflexivity | exact Hok]. }
  destruct Hok as (Htasks & extra & Hcalls & Heach & Hsum).
  destruct (advance_CallsAtMost cid _ _ (CallsAtMost_fetchCIDContent cid) (world p))
    as (b & j & Hj & Ht & Hlog).
  destruct (advance (fetchCIDContent cid) (world p)) as [t w1]. cbn [fst snd] in *.
  destruct (IH (cbs ++ [(cid, b)])%list
              {| tasks := tasks p ++ [t];
                 rejection := note_rejection t (rejection p);
                 world := w1 |}) as (cbs' & Hfst & Hok').
  { split.
    - cbn [tasks]. apply Forall2_app; [exact Htasks | repeat constructor; exact Ht].
    - exists (extra ++ replicate j cid)%list. cbn [world]. split; [|split].
      + rewrite Hlog, Hcalls, app_assoc. reflexivity.
      + intros c. rewrite occurrences_app, occurrences_replicate, entries_snoc, budget_snoc.
        specialize (Heach c). unfold DEFAULT_MAX_RETRIES in *.
        destruct (String.eqb c cid); lia.
      + rewrite fmap_app, sum_list_with_app, !length_app, length_replicate. simpl.
        unfold DEFAULT_MAX_RETRIES in *. lia. }
  exists cbs'. split; [|exact Hok'].
  rewrite Hfst, fmap_app, <- app_assoc. reflexivity.
Qed.

(** ** The retry loop stops at the first authorization failure *)

Lemma retryLoop_stops_at_auth (gw : Gateway) (CID : string) (left : nat) :
  forall (retryCount : nat) (w : World) (k : nat) (e : Value),
    k <= left ->
    (forall j, j < k ->
       exists e', attempt gw CID w j = Rejected e' /\ isAuthError e' = Fulfilled false) ->
    attempt gw CID w k = Rejected e ->
    isAuthError e = Fulfilled true ->
    exists w', run gw (retryLoop left CID retryCount) w = (Fulfilled VNull, w')
               /\ calls w' = (calls w ++ replicate (S k) CID)%list.
Proof.
  induction left as [|left IH]; intros rc w k e Hk Hfail He Hauth.
  - assert (k = 0) as -> by lia. rewrite attempt_0 in He.
    eexists. split; [apply (attempt_auth gw CID w _ rc e He Hauth) | reflexivity].
  - destruct k as [|k].
    + rewrite attempt_0 in He.
      eexists. split; [apply (attempt_auth gw CID w _ rc e He Hauth) | reflexivity].
    + destruct (Hfail 0) as (e0 & He0 & Hauth0); [lia|].
      rewrite attempt_0 in He0.
      rewrite (attempt_retry gw CID w left rc e0 He0 Hauth0).
      destruct (IH (rc + 1)
                  (elapse (RETRY_DELAY * N.of_nat (rc + 1)) (after_call gw CID w)) k e)
        as (w' & Hrun & Hcalls).
      * lia.
      * intros j Hj. rewrite attempt_shift. apply Hfail. lia.
      * rewrite attempt_shift. exact He.
      * exact Hauth.
      * exists w'. split; [exact Hrun|].
        rewrite Hcalls. simpl. rewrite <- app_assoc. reflexivity.
Qed.

(** ** The value a call in flight ends with *)








Section PoolAnswers.
Variables (w : World) (CIDs : list string).


End PoolAnswers.


(** ** Every call in flight is at some stage of the retry loop *)








(** * The claims *)

(** ** C1: an authorization failure is not retried *)

(** C1.  Whatever the CID, when the gateway call fails with an error that
    is classified as an authentication or authorization failure, by
    [isAuthError] as the source evaluates it, and so in particular when an
    error of the declared shape meets one of the five conditions the
    specification lists ([auth_by_spec]), [fetchWithRetry] makes that one
    call and no other, and returns [null]. *)
Theorem C1_auth_failure_one_call_null
    (gw : Gateway) (CID : string) (retryCount : nat) (w : World) (e : Value) :
  attempt gw CID w 0 = Rejected e ->
  isAuthError e = Fulfilled true \/ (declared_shape e = true /\ auth_by_spec e = true) ->
  exists w', run gw (fetchWithRetry CID retryCount) w = (Fulfilled VNull, w')
             /\ calls w' = (calls w ++ [CID])%list.
Proof.
  intros He Hauth. rewrite attempt_0 in He.
  assert (isAuthError e = Fulfilled true) as Hcode.
  { destruct Hauth as [H|[Hshape Hspec]]; [exact H|].
    rewrite (isAuthError_declared e Hshape), Hspec. reflexivity. }
  exists (after_call gw CID w). split; [|reflexivity].
  apply (attempt_auth gw CID w _ retryCount e He Hcode).
Qed.

Lemma C1_witness :
  attempt gateway_forbidden "QmA" empty_world 0 = Rejected forbidden
  /\ (declared_shape forbidden = true /\ auth_by_spec forbidden = true)
  /\ exists w', run gateway_forbidden (fetchWithRetry "QmA" 0) empty_world = (Fulfilled VNull, w')
                /\ calls w' = ["QmA"].
Proof.
  split; [reflexivity|]. split; [split; reflexivity|].
  apply (C1_auth_failure_one_call_null gateway_forbidden "QmA" 0 empty_world forbidden).
  - reflexivity.
  - right. split; reflexivity.
Defined.

(** ** C2: retry until the first success or the third failure *)

(** C2.  Whatever the CID, [fetchWithRetry] calls the gateway until a call
    succeeds or [DEFAULT_MAX_RETRIES + 1 = 3] calls have failed with
    non-auth errors: if the first [k <= 2] calls fail so and the next one
    succeeds, exactly [k + 1] calls are made and the result is the payload
    of the last (with [k = 2]: fails twice, then succeeds, three calls); if
    all of the first three calls fail so, exactly three calls are made and
    the result is [null]. *)
Theorem C2_retry_until_success_or_limit (gw : Gateway) (CID : string) (w : World) :
  (forall (k : nat) (v : Value),
      k <= DEFAULT_MAX_RETRIES ->
      (forall j, j < k -> exists e, attempt gw CID w j = Rejected e /\ nonAuthError e) ->
      attempt gw CID w k = Fulfilled v ->
      exists w', run gw (fetchWithRetry CID 0) w = (Fulfilled v, w')
                 /\ calls w' = (calls w ++ replicate (k + 1) CID)%list)
  /\ ((forall j, j <= DEFAULT_MAX_RETRIES ->
         exists e, attempt gw CID w j = Rejected e /\ nonAuthError e) ->
      exists w', run gw (fetchWithRetry CID 0) w = (Fulfilled VNull, w')
                 /\ calls w' = (calls w ++ replicate (DEFAULT_MAX_RETRIES + 1) CID)%list).
Proof.
  split.
  - intros k v Hk Hfail Hok.
    replace (k + 1) with (S k) by lia.
    apply (retryLoop_succeeds gw CID (DEFAULT_MAX_RETRIES - 0) 0 w k v).
    + simpl. exact Hk.
    + intros j Hj. destruct (Hfail j Hj) as (e & He & Hauth & _). eauto.
    + exact Hok.
  - intros Hfail.
    apply (retryLoop_exhausted gw CID (DEFAULT_MAX_RETRIES - 0) 0 w).
    exact Hfail.
Qed.

Lemma network_error_nonAuth : nonAuthError network_error.
Proof. split; [reflexivity | discriminate]. Qed.

Lemma C2_witness :
  (exists w', run gateway_third_time (fetchWithRetry "QmA" 0) empty_world = (Fulfilled payload, w')
              /\ calls w' = ["QmA"; "QmA"; "QmA"])
  /\ (exists w', run gateway_down (fetchWithRetry "QmA" 0) empty_world = (Fulfilled VNull, w')
                 /\ calls w' = ["QmA"; "QmA"; "QmA"]).
Proof.
  split.
  - apply (proj1 (C2_retry_until_success_or_limit gateway_third_time "QmA" empty_world)
             2 payload).
    + unfold DEFAULT_MAX_RETRIES. lia.
    + intros j Hj. exists network_error. split; [|exact network_error_nonAuth].
      destruct j as [|[|j]]; [reflexivity | reflexivity | lia].
    + reflexivity.
  - apply (proj2 (C2_retry_until_success_or_limit gateway_down "QmA" empty_world)).
    intros j _. exists network_error. split; [reflexivity | exact network_error_nonAuth].
Defined.

(** ** C3: the status after the retries are exhausted *)

(** C3, at an input where the code departs from it.  The gateway answers
    every call for "QmA" with a network error.  After three calls the
    result is [null], as the claim says, but the status carries no error
    message: [getError] is [null] and [isLoading] is [false].  The final
    failure is swallowed by [fetchWithRetry] (line 107), so the branch of
    [fetchCIDContent] that records an error (lines 129-134) is not
    reached. *)
Theorem C3_transient_failure_records_no_error :
  let r := run gateway_down (fetchCIDContent "QmA") empty_world in
  fst r = Fulfilled VNull
  /\ calls (snd r) = ["QmA"; "QmA"; "QmA"]
  /\ getError (status (snd r)) "QmA" = VNull
  /\ isLoading (status (snd r)) "QmA" = false.
Proof. vm_compute. repeat split; reflexivity. Qed.

(** ** C4: a second call for the same CID *)

(** C4 fails as stated: after a fetch of "QmA" that failed, [null] is what
    the cache holds, and a second call goes to the gateway again, three
    more times. *)
Lemma C4_counterexample :
  let first := run gateway_down (fetchCIDContent "QmA") empty_world in
  let second := run gateway_down (fetchCIDContent "QmA") (snd first) in
  fst first = Fulfilled VNull
  /\ calls (snd first) = ["QmA"; "QmA"; "QmA"]
  /\ calls (snd second) = ["QmA"; "QmA"; "QmA"; "QmA"; "QmA"; "QmA"]
  /\ calls (snd second) <> calls (snd first).
Proof. vm_compute. repeat split; try reflexivity. discriminate. Qed.

(** C4, amended.  For a non-empty CID, when a first [fetchCIDContent]
    returns a truthy payload, the cache holds that payload under the CID
    (stored at the time the call completed, if it came from the gateway),
    and a second call that starts before the entry's time-to-live has run
    out returns the cached payload and makes no gateway call, whatever the
    gateway would have answered. *)
Theorem C4_second_call_served_from_cache
    (gw : Gateway) (CID : string) (w w1 : World) (v : Value) :
  truthy (VStr CID) = true ->
  run gw (fetchCIDContent CID) w = (Fulfilled v, w1) ->
  truthy v = true ->
  exists e,
    LRUCache.find CID (cache w1) = Some e
    /\ LRUCache.value e = v
    /\ (truthy (cached CID w) = false -> LRUCache.start e = now w1)
    /\ forall (gw' : Gateway) (dt : N),
         (now w1 + dt < LRUCache.start e + DEFAULT_TTL)%N ->
         exists w2, run gw' (fetchCIDContent CID) (elapse dt w1) = (Fulfilled v, w2)
                    /\ calls w2 = calls w1.
Proof.
  intros Hcid Hrun Hv.
  assert (forall e gw' dt,
             LRUCache.find CID (cache w1) = Some e -> LRUCache.value e = v ->
             (now w1 + dt < LRUCache.start e + DEFAULT_TTL)%N ->
             exists w2, run gw' (fetchCIDContent CID) (elapse dt w1) = (Fulfilled v, w2)
                        /\ calls w2 = calls w1) as Hsecond.
  { intros e gw' dt Hfind Hval Hlt.
    assert (cached CID (elapse dt w1) = v) as Hc.
    { unfold cached. simpl. rewrite (LRUCacheFacts.get_fresh _ _ _ _ e Hfind Hlt). exact Hval. }
    exists (after_lookup CID (elapse dt w1)). split; [|reflexivity].
    rewrite <- Hc. apply run_fetchCIDContent_hit; [exact Hcid | rewrite Hc; exact Hv]. }
  destruct (truthy (cached CID w)) eqn:Hc.
  - rewrite (run_fetchCIDContent_hit gw CID w Hcid Hc) in Hrun. inversion Hrun; subst.
    destruct (LRUCacheFacts.get_truthy DEFAULT_TTL CID (now w) (cache w) (cached CID w)
                (snd (LRUCache.get DEFAULT_TTL CID (now w) (cache w))))
      as (e & Hfind & Hval & _ & Hcache).
    { unfold cached. destruct (LRUCache.get _ _ _ _). reflexivity. }
    { exact Hc. }
    assert (LRUCache.find CID (cache (after_lookup CID w)) = Some e) as Hfind1.
    { simpl. rewrite Hcache. apply LRUCacheFacts.find_head.
      apply (LRUCacheFacts.find_key CID (cache w) e Hfind). }
    exists e. repeat split; [exact Hfind1 | exact Hval | discriminate |].
    intros gw' dt Hlt. apply (Hsecond e gw' dt Hfind1 Hval Hlt).
  - rewrite (run_fetchCIDContent_miss gw CID w Hcid Hc), run_after_miss in Hrun.
    pose proof (retryLoop_result gw CID DEFAULT_MAX_RETRIES 0 (after_lookup CID w)) as Hres.
    destruct (run gw (retryLoop DEFAULT_MAX_RETRIES CID 0) (after_lookup CID w))
      as [[data|err] w'].
    + inversion Hrun; subst.
      assert (LRUCache.find CID
                (cache (do_updateStatus CID success_update (do_cache_set CID v w')))
              = Some {| LRUCache.key := CID; LRUCache.value := v; LRUCache.start := now w' |})
        as Hfind1.
      { simpl. apply LRUCacheFacts.find_set; [unfold CACHE_MAX; lia|].
        intros ->. discriminate Hv. }
      eexists. repeat split; [exact Hfind1 | reflexivity | reflexivity |].
      intros gw' dt Hlt. apply (Hsecond _ gw' dt Hfind1 eq_refl Hlt).
    + simpl in Hres. destruct Hres as [H|[(x & n & H & _)|[msg H]]]; try discriminate H.
      injection H as ->.
      destruct (run_record_error gw CID msg w') as (m & Hm & _).
      rewrite Hm in Hrun. inversion Hrun; subst. discriminate Hv.
Qed.

Lemma C4_witness :
  truthy (VStr "QmA") = true
  /\ truthy payload = true
  /\ exists w2,
       run gateway_down (fetchCIDContent "QmA")
         (elapse 1000 (snd (run gateway_up (fetchCIDContent "QmA") empty_world)))
       = (Fulfilled payload, w2)
       /\ calls w2 = ["QmA"].
Proof.
  split; [reflexivity|]. split; [reflexivity|].
  destruct (C4_second_call_served_from_cache gateway_up "QmA" empty_world
              (snd (run gateway_up (fetchCIDContent "QmA") empty_world)) payload)
    as (e & _ & _ & Hstart & Hsecond).
  - reflexivity.
  - vm_compute. reflexivity.
  - reflexivity.
  - apply (Hsecond gateway_down 1000%N).
    rewrite Hstart by reflexivity. unfold DEFAULT_TTL. lia.
Defined.

(** ** C5: a cache hit *)

(** C5 fails as stated: being present in the cache is not enough.  In the
    world a failed fetch leaves, "QmA" is in the cache with the value
    [null]; the call does not return that value but goes to the gateway,
    and it ends with [loading] false. *)
Lemma C5_counterexample :
  let r := run gateway_up (fetchCIDContent "QmA") null_cached in
  (exists e, LRUCache.find "QmA" (cache null_cached) = Some e /\ LRUCache.value e = VNull)
  /\ fst r = Fulfilled payload
  /\ calls (snd r) = (calls null_cached ++ ["QmA"])%list
  /\ isLoading (status (snd r)) "QmA" = false
  /\ isLoading (status (snd r)) "QmA" <> true.
Proof.
  vm_compute.
  split; [eexists; split; reflexivity | repeat split; try reflexivity; discriminate].
Qed.

(** C5, amended.  For a non-empty CID whose cache lookup gives a truthy
    value, [fetchCIDContent] returns that value without calling the
    gateway, and the status of the CID is what the update at the start of
    the call made it and stays so: [loading] true, [error] null,
    [lastUpdated] the time of the call. *)
Theorem C5_cache_hit_left_loading (gw : Gateway) (CID : string) (w : World) :
  truthy (VStr CID) = true ->
  truthy (cached CID w) = true ->
  exists w',
    run gw (fetchCIDContent CID) w = (Fulfilled (cached CID w), w')
    /\ calls w' = calls w
    /\ status w' = markLoading CID (now w) (status w)
    /\ status w' !! CID
       = Some {| loading := Some true; error := Some VNull; lastUpdated := Some (now w) |}
    /\ isLoading (status w') CID = true
    /\ getError (status w') CID = VNull.
Proof.
  intros Hcid Hhit. exists (after_lookup CID w).
  split; [apply run_fetchCIDContent_hit; assumption|].
  split; [reflexivity|]. split; [reflexivity|].
  pose proof (status_after_lookup CID w) as Hst.
  split; [exact Hst|].
  unfold isLoading, getError. rewrite Hst. split; reflexivity.
Qed.

Lemma C5_witness :
  truthy (VStr "QmA") = true
  /\ truthy (cached "QmA" warm_world) = true
  /\ exists w', run gateway_down (fetchCIDContent "QmA") warm_world = (Fulfilled payload, w')
                /\ calls w' = ["QmA"]
                /\ isLoading (status w') "QmA" = true.
Proof.
  split; [reflexivity|]. split; [reflexivity|].
  destruct (C5_cache_hit_left_loading gateway_down "QmA" warm_world)
    as (w' & Hrun & Hcalls & _ & _ & Hload & _); [reflexivity | reflexivity |].
  exists w'. split; [exact Hrun|]. split; [exact Hcalls | exact Hload].
Defined.

(** ** C6: fetchMultipleCIDs *)

(** The specification's example: of three calls the one for "b" fails;
    the result has three entries, [null] in the middle. *)
Example fetchMultipleCIDs_abc :
  promise_all (fetchMultipleCIDs ["a"; "b"; "c"] empty_world three_replies)
  = Some (Fulfilled [VStr "a's content"; VNull; VStr "c's content"]).
Proof. vm_compute. reflexivity. Qed.



(** ** C7: an empty CID *)

(** C7.  For a falsy CID, which for a string is the empty one,
    [fetchCIDContent] returns [null] and leaves the world as it was: no
    gateway call is logged, and neither the status mapping nor the cache
    is touched.  For a key never fetched the readers therefore still give
    their defaults: not loading, no error, no time of last update. *)
Theorem C7_empty_CID_null_and_no_effect (gw : Gateway) (CID : string) (w : World) :
  truthy (VStr CID) = false ->
  CID = ""
  /\ exists w',
       run gw (fetchCIDContent CID) w = (Fulfilled VNull, w')
       /\ w' = w
       /\ calls w' = calls w
       /\ status w' = status w
       /\ (status w !! CID = None ->
           isLoading (status w') CID = false
           /\ getError (status w') CID = VNull
           /\ getLastUpdated (status w') CID = None).
Proof.
  intros Hcid. split.
  - destruct CID; [reflexivity | discriminate Hcid].
  - exists w. split; [apply run_fetchCIDContent_empty, Hcid|].
    repeat split; unfold isLoading, getError, getLastUpdated;
      match goal with H : _ !! _ = None |- _ => rewrite H end; reflexivity.
Qed.

Lemma C7_witness :
  truthy (VStr "") = false
  /\ run gateway_up (fetchCIDContent "") empty_world = (Fulfilled VNull, empty_world).
Proof.
  split; [reflexivity|].
  destruct (C7_empty_CID_null_and_no_effect gateway_up "" empty_world eq_refl)
    as (_ & w' & Hrun & -> & _).
  exact Hrun.
Defined.

(** ** C8: a status update touches one key *)

(** C8.  For two distinct CIDs, an update of the status of one, with any
    fields and so in particular the three the hook makes ([markLoading],
    [markSuccess], [markError]), leaves the entry of the other as it was;
    and so does a whole [fetchCIDContent] for the one, against any gateway
    and from any world. *)
Theorem C8_status_update_leaves_others
    (CID other : string) (date_now : N) (prev : gmap string FetchStatus) :
  CID <> other ->
  (forall updates, updateStatus CID updates date_now prev !! other = prev !! other)
  /\ markLoading CID date_now prev !! other = prev !! other
  /\ markSuccess CID date_now prev !! other = prev !! other
  /\ (forall message, markError CID message date_now prev !! other = prev !! other)
  /\ (forall (gw : Gateway) (w : World),
        status (snd (run gw (fetchCIDContent CID) w)) !! other = status w !! other).
Proof.
  intros Hne.
  assert (forall updates, updateStatus CID updates date_now prev !! other = prev !! other)
    as Hupd.
  { intros updates. unfold updateStatus. apply lookup_insert_ne, Hne. }
  split; [exact Hupd|]. split; [apply Hupd|]. split; [apply Hupd|].
  split; [intros message; apply Hupd|].
  intros gw w. apply run_UpdatesOnly with (CID := CID); [|exact Hne].
  apply UpdatesOnly_fetchCIDContent.
Qed.

Lemma C8_witness :
  "QmA" <> "QmB"
  /\ markLoading "QmA" 9 two_statuses !! "QmB" = two_statuses !! "QmB".
Proof.
  assert ("QmA" <> "QmB") as Hne by discriminate.
  split; [exact Hne|].
  apply (proj1 (proj2 (C8_status_update_leaves_others "QmA" "QmB" 9 two_statuses Hne))).
Defined.

(** ** C9: nothing is thrown to the caller *)

(** C9 fails as stated, for [fetchWithRetry]: an error object whose
    [message] is a number makes the classification itself throw, inside the
    [catch] block, and [fetchWithRetry] rejects. *)
Lemma C9_counterexample :
  fst (run gateway_odd (fetchWithRetry "QmA" 0) empty_world)
  = Rejected (TypeError "normalizedError?.message?.includes is not a function").
Proof. reflexivity. Qed.

(** C9, amended.  [fetchCIDContent] never rejects, whatever the CID and
    however the gateway settles each call, with any value at all as the
    error: its result is [null], the cached value, or a payload the
    gateway returned.  [fetchWithRetry] never rejects when every error the
    gateway raises has the shape the source declares, an object whose
    [message] is a string or missing: its result is [null] or a payload the
    gateway returned. *)
Theorem C9_failures_become_null (gw : Gateway) (CID : string) (w : World) :
  (exists v w',
      run gw (fetchCIDContent CID) w = (Fulfilled v, w')
      /\ (v = VNull \/ v = cached CID w \/ exists n, outcome (gw n CID) = Fulfilled v))
  /\ ((forall n e, outcome (gw n CID) = Rejected e -> declared_shape e = true) ->
      forall retryCount,
      exists v w',
        run gw (fetchWithRetry CID retryCount) w = (Fulfilled v, w')
        /\ (v = VNull \/ exists n, outcome (gw n CID) = Fulfilled v)).
Proof.
  split.
  - destruct (truthy (VStr CID)) eqn:Hcid.
    2: { exists VNull, w. split; [apply run_fetchCIDContent_empty, Hcid | auto]. }
    destruct (truthy (cached CID w)) eqn:Hc.
    { exists (cached CID w), (after_lookup CID w).
      split; [apply run_fetchCIDContent_hit; assumption | auto]. }
    rewrite (run_fetchCIDContent_miss gw CID w Hcid Hc), run_after_miss.
    pose proof (retryLoop_result gw CID DEFAULT_MAX_RETRIES 0 (after_lookup CID w)) as Hres.
    destruct (run gw (retryLoop DEFAULT_MAX_RETRIES CID 0) (after_lookup CID w))
      as [[data|err] w']; simpl in Hres.
    + eexists _, _. split; [reflexivity|].
      destruct Hres as [H|[(x & n & H & Hn)|[msg H]]]; try discriminate H;
        injection H as ->; eauto.
    + destruct Hres as [H|[(x & n & H & _)|[msg H]]]; try discriminate H.
      injection H as ->.
      destruct (run_record_error gw CID msg w') as (m & Hm & _).
      rewrite Hm. eauto.
  - intros Hshape rc.
    destruct (retryLoop_declared gw CID (DEFAULT_MAX_RETRIES - rc) Hshape rc w)
      as (v & w' & Hrun).
    exists v, w'. split; [exact Hrun|].
    pose proof (retryLoop_result gw CID (DEFAULT_MAX_RETRIES - rc) rc w) as Hres.
    unfold fetchWithRetry in Hrun. rewrite Hrun in Hres. simpl in Hres.
    destruct Hres as [H|[(x & n & H & Hn)|[msg H]]]; try discriminate H;
      injection H as ->; eauto.
Qed.

Lemma C9_witness :
  (forall n e, outcome (gateway_down n "QmA") = Rejected e -> declared_shape e = true)
  /\ exists v w', run gateway_down (fetchWithRetry "QmA" 0) empty_world = (Fulfilled v, w').
Proof.
  assert (forall n e, outcome (gateway_down n "QmA") = Rejected e -> declared_shape e = true)
    as Hshape.
  { intros n e H. injection H as <-. reflexivity. }
  split; [exact Hshape|].
  destruct (proj2 (C9_failures_become_null gateway_down "QmA" empty_world) Hshape 0)
    as (v & w' & Hrun & _).
  exists v, w'. exact Hrun.
Defined.

(** ** C10: a falsy cached value counts as a miss *)

(** C10.  For a non-empty CID under which the cache holds a falsy value,
    [fetchCIDContent] takes the lookup for a miss, since the branch at line
    118 tests the value and not the presence of the key, and calls the
    gateway.  In particular after a call that came back with [null], or
    anything falsy, as a failed fetch does: however much later the next
    call for the CID is made, it calls the gateway again. *)
Theorem C10_falsy_cached_value_refetched (gw : Gateway) (CID : string) (w : World) :
  truthy (VStr CID) = true ->
  ((exists e, LRUCache.find CID (cache w) = Some e /\ truthy (LRUCache.value e) = false) ->
   exists more,
     calls (snd (run gw (fetchCIDContent CID) w)) = (calls w ++ CID :: more)%list)
  /\ (forall (gw0 : Gateway) (w0 : World) (v : Value) (dt : N),
        run gw0 (fetchCIDContent CID) w0 = (Fulfilled v, w) ->
        truthy v = false ->
        exists more,
          calls (snd (run gw (fetchCIDContent CID) (elapse dt w)))
          = (calls w ++ CID :: more)%list).
Proof.
  intros Hcid.
  assert (forall w1, truthy (cached CID w1) = false ->
            exists more,
              calls (snd (run gw (fetchCIDContent CID) w1)) = (calls w1 ++ CID :: more)%list)
    as Hmiss.
  { intros w1 Hc. rewrite (run_fetchCIDContent_miss gw CID w1 Hcid Hc).
    apply (calls_after_miss gw CID DEFAULT_MAX_RETRIES 0 (after_lookup CID w1)). }
  split.
  - intros (e & Hfind & Hfalsy). apply Hmiss.
    apply LRUCacheFacts.get_falsy_entry. rewrite Hfind. exact Hfalsy.
  - intros gw0 w0 v dt Hrun Hv.
    apply (Hmiss (elapse dt w)).
    apply (falsy_result_misses gw0 CID w0 w v Hcid Hrun Hv).
Qed.

Lemma C10_witness :
  truthy (VStr "QmA") = true
  /\ (exists e, LRUCache.find "QmA" (cache null_cached) = Some e
                /\ truthy (LRUCache.value e) = false)
  /\ exists more,
       calls (snd (run gateway_up (fetchCIDContent "QmA") null_cached))
       = (calls null_cached ++ "QmA" :: more)%list.
Proof.
  assert (exists e, LRUCache.find "QmA" (cache null_cached) = Some e
                    /\ truthy (LRUCache.value e) = false) as Hnull.
  { vm_compute. eexists. split; reflexivity. }
  split; [reflexivity|]. split; [exact Hnull|].
  apply (proj1 (C10_falsy_cached_value_refetched gateway_up "QmA" null_cached eq_refl) Hnull).
Defined.

(** * Further properties of the hook *)

(** ** fetchWithRetry *)

(** X1.  Whatever the gateway does and whatever [retryCount] it is called
    with, [fetchWithRetry] calls the gateway at least once and at most
    [DEFAULT_MAX_RETRIES - retryCount + 1] times, every time for the CID
    it was given; called with [retryCount] at or above the limit it makes
    one call. *)
Theorem X1_fetchWithRetry_call_bound
    (gw : Gateway) (CID : string) (retryCount : nat) (w : World) :
  exists k,
    1 <= k <= DEFAULT_MAX_RETRIES - retryCount + 1
    /\ calls (snd (run gw (fetchWithRetry CID retryCount) w))
       = (calls w ++ replicate k CID)%list.
Proof.
  destruct (retryLoop_calls gw CID (DEFAULT_MAX_RETRIES - retryCount) retryCount w)
    as (k & Hk & Hcalls).
  exists k. split; [lia | exact Hcalls].
Qed.

(** X2.  [fetchWithRetry] leaves the cache and the status mapping as they
    are, however it ends: storing the result and reporting it are left to
    its caller. *)
Theorem X2_fetchWithRetry_leaves_cache_and_status
    (gw : Gateway) (CID : string) (retryCount : nat) (w : World) :
  cache (snd (run gw (fetchWithRetry CID retryCount) w)) = cache w
  /\ status (snd (run gw (fetchWithRetry CID retryCount) w)) = status w.
Proof.
  apply run_NetOnly, NetOnly_retryLoop.
Qed.

(** X3.  However the gateway settles its calls, [fetchWithRetry] ends in
    one of three ways: with [null], with a payload the gateway returned for
    this CID, or rejected with a [TypeError] raised in its own [catch]
    block.  It rejects with nothing else. *)
Theorem X3_fetchWithRetry_outcomes
    (gw : Gateway) (CID : string) (retryCount : nat) (w : World) :
  let r := fst (run gw (fetchWithRetry CID retryCount) w) in
  r = Fulfilled VNull
  \/ (exists v n, r = Fulfilled v /\ outcome (gw n CID) = Fulfilled v)
  \/ (exists msg, r = Rejected (TypeError msg)).
Proof.
  apply (retryLoop_result gw CID (DEFAULT_MAX_RETRIES - retryCount) retryCount w).
Qed.

(** X4.  The backoff is linear: before the first retry the hook waits
    [RETRY_DELAY], before the second twice that.  When the first two calls
    fail with errors classified as not auth, the third call is over, with
    whatever result, at the time the three calls took plus
    [3 * RETRY_DELAY]; when only the first fails so and the second
    succeeds, at the time the two calls took plus [RETRY_DELAY]. *)
Theorem X4_linear_backoff (gw : Gateway) (CID : string) (w : World) (e0 : Value) :
  attempt gw CID w 0 = Rejected e0 ->
  isAuthError e0 = Fulfilled false ->
  (forall v, attempt gw CID w 1 = Fulfilled v ->
     now (snd (run gw (fetchWithRetry CID 0) w))
     = (now w + duration gw CID w 0 + RETRY_DELAY + duration gw CID w 1)%N)
  /\ (forall e1, attempt gw CID w 1 = Rejected e1 ->
        isAuthError e1 = Fulfilled false ->
        now (snd (run gw (fetchWithRetry CID 0) w))
        = (now w + duration gw CID w 0 + RETRY_DELAY + duration gw CID w 1
           + 2 * RETRY_DELAY + duration gw CID w 2)%N).
Proof.
  intros He0 Hauth0. rewrite attempt_0 in He0.
  unfold fetchWithRetry. change (DEFAULT_MAX_RETRIES - 0) with 2.
  rewrite (attempt_retry gw CID w 1 0 e0 He0 Hauth0).
  set (w1 := elapse (RETRY_DELAY * N.of_nat (0 + 1)) (after_call gw CID w)).
  assert (length (calls w1) = length (calls w) + 1) as Hlen1.
  { unfold w1. simpl. rewrite length_app. reflexivity. }
  assert (now w1 = (now w + duration gw CID w 0 + RETRY_DELAY)%N) as Hnow1.
  { unfold w1, duration. simpl. rewrite Nat.add_0_r. unfold RETRY_DELAY. lia. }
  clearbody w1. split.
  - intros v Hv. unfold attempt in Hv. rewrite <- Hlen1 in Hv.
    rewrite (attempt_fulfilled gw CID w1 _ _ v Hv).
    unfold after_call. simpl. rewrite Hlen1, Hnow1. reflexivity.
  - intros e1 He1 Hauth1. unfold attempt in He1. rewrite <- Hlen1 in He1.
    rewrite (attempt_retry gw CID w1 _ _ e1 He1 Hauth1).
    set (w2 := elapse (RETRY_DELAY * N.of_nat (0 + 1 + 1)) (after_call gw CID w1)).
    assert (length (calls w2) = length (calls w) + 2) as Hlen2.
    { unfold w2. simpl. rewrite length_app, Hlen1. simpl. lia. }
    assert (now w2 = (now w + duration gw CID w 0 + RETRY_DELAY + duration gw CID w 1
                      + 2 * RETRY_DELAY)%N) as Hnow2.
    { unfold w2. simpl. rewrite Hnow1, Hlen1. unfold duration, RETRY_DELAY. lia. }
    clearbody w2.
    destruct (outcome (gw (length (calls w2)) CID)) as [v|e2] eqn:Hout.
    + rewrite (attempt_fulfilled gw CID w2 _ _ v Hout).
      unfold after_call. simpl. rewrite Hlen2, Hnow2. reflexivity.
    + destruct (isAuthError e2) as [[|]|err] eqn:Hauth2.
      * rewrite (attempt_auth gw CID w2 _ _ e2 Hout Hauth2).
        unfold after_call. simpl. rewrite Hlen2, Hnow2. reflexivity.
      * rewrite (attempt_last_world gw CID w2 _ e2 Hout Hauth2).
        unfold after_call. simpl. rewrite Hlen2, Hnow2. reflexivity.
      * rewrite (attempt_throws gw CID w2 _ _ e2 err Hout Hauth2).
        unfold after_call. simpl. rewrite Hlen2, Hnow2. reflexivity.
Qed.

Lemma X4_witness :
  attempt gateway_down "QmA" empty_world 0 = Rejected network_error
  /\ isAuthError network_error = Fulfilled false
  /\ now (snd (run gateway_down (fetchWithRetry "QmA" 0) empty_world)) = 3120%N.
Proof.
  split; [reflexivity|]. split; [reflexivity|].
  rewrite (proj2 (X4_linear_backoff gateway_down "QmA" empty_world network_error
                    eq_refl eq_refl) network_error eq_refl eq_refl).
  reflexivity.
Defined.

(** ** The classification *)

(** X5.  Where the classification of a caught value throws, and where it
    does not.  It throws a [TypeError] on [null] ([typeof null] is
    "object", and [in] refuses [null]) and on an object whose [message] is
    a boolean, a number or an object that is plain data, on which
    [includes] is no function.  It gives an answer on [undefined], on a
    string, a number or a boolean, and on every object whose [message] is
    missing, nullish or a string. *)
Theorem X5_where_classification_throws :
  (exists msg, isAuthError VNull = Rejected (TypeError msg))
  /\ (forall fields m,
        lookup_field "message" fields = Some m ->
        (exists b, m = VBool b) \/ (exists n, m = VNum n) \/ (exists fs, m = VObj fs) ->
        exists msg, isAuthError (VObj fields) = Rejected (TypeError msg))
  /\ (forall e,
        e = VUndefined \/ primitive e = true \/ declared_shape e = true ->
        exists b, isAuthError e = Fulfilled b).
Proof.
  split; [apply isAuthError_unclassifiable; reflexivity|]. split.
  - intros fields m Hm Hkind. apply isAuthError_unclassifiable. simpl. rewrite Hm.
    destruct Hkind as [[b ->]|[[n ->]|[fs ->]]]; reflexivity.
  - intros e [->|[Hp|Hd]].
    + exists false. reflexivity.
    + exists false. apply isAuthError_primitive, Hp.
    + exists (auth_by_spec e). apply isAuthError_declared, Hd.
Qed.

Lemma X5_witness :
  lookup_field "message" [("message", VNum 403)] = Some (VNum 403)
  /\ (exists msg, isAuthError odd_error = Rejected (TypeError msg))
  /\ declared_shape network_error = true
  /\ (exists b, isAuthError network_error = Fulfilled b).
Proof.
  destruct X5_where_classification_throws as (_ & Hthrows & Hanswers).
  split; [reflexivity|]. split.
  - apply (Hthrows [("message", VNum 403)] (VNum 403)); [reflexivity|].
    right. left. exists 403%Z. reflexivity.
  - split; [reflexivity|]. apply Hanswers. right. right. reflexivity.
Defined.

(** X6.  A rejection with a primitive value is never taken for an
    authorization failure, whatever the value says: a gateway that rejects
    its first three calls with strings, numbers or booleans (the string
    "403 Forbidden", say) is called three times and the result is [null]. *)
Theorem X6_primitive_rejections_are_retried (gw : Gateway) (CID : string) (w : World) :
  (forall j, j <= DEFAULT_MAX_RETRIES ->
     exists e, attempt gw CID w j = Rejected e /\ primitive e = true) ->
  exists w', run gw (fetchWithRetry CID 0) w = (Fulfilled VNull, w')
             /\ calls w' = (calls w ++ [CID; CID; CID])%list.
Proof.
  intros Hprim.
  apply (retryLoop_exhausted gw CID (DEFAULT_MAX_RETRIES - 0) 0 w).
  intros j Hj. destruct (Hprim j Hj) as (e & He & Hp).
  exists e. split; [exact He|]. split; [apply isAuthError_primitive, Hp|].
  intros ->. discriminate Hp.
Qed.

Lemma X6_witness :
  (forall j, j <= DEFAULT_MAX_RETRIES ->
     exists e, attempt gateway_says_403 "QmA" empty_world j = Rejected e /\ primitive e = true)
  /\ exists w', run gateway_says_403 (fetchWithRetry "QmA" 0) empty_world = (Fulfilled VNull, w')
                /\ calls w' = ["QmA"; "QmA"; "QmA"].
Proof.
  assert (forall j, j <= DEFAULT_MAX_RETRIES ->
            exists e, attempt gateway_says_403 "QmA" empty_world j = Rejected e
                      /\ primitive e = true) as Hprim.
  { intros j _. exists (VStr "403 Forbidden"). split; reflexivity. }
  split; [exact Hprim|].
  apply (X6_primitive_rejections_are_retried gateway_says_403 "QmA" empty_world Hprim).
Defined.

(** ** fetchCIDContent *)

(** X7.  When the lookup misses and [fetchWithRetry] comes back with a
    value, be it a payload or the [null] of a failed fetch,
    [fetchCIDContent] returns that value, stores it in the cache under the
    CID with the time of completion (an [undefined] is not stored: the key
    is deleted), and leaves the status of the CID at [loading] false,
    [error] null, [lastUpdated] the time of completion. *)
Theorem X7_fetched_value_stored_and_reported
    (gw : Gateway) (CID : string) (w w1 : World) (data : Value) :
  truthy (VStr CID) = true ->
  truthy (cached CID w) = false ->
  run gw (fetchWithRetry CID 0) (after_lookup CID w) = (Fulfilled data, w1) ->
  exists w',
    run gw (fetchCIDContent CID) w = (Fulfilled data, w')
    /\ calls w' = calls w1 /\ now w' = now w1
    /\ status w' !! CID
       = Some {| loading := Some false; error := Some VNull; lastUpdated := Some (now w1) |}
    /\ (data <> VUndefined ->
        LRUCache.find CID (cache w')
        = Some {| LRUCache.key := CID; LRUCache.value := data; LRUCache.start := now w1 |})
    /\ (data = VUndefined -> LRUCache.find CID (cache w') = None).
Proof.
  intros Hcid Hmiss Hrun.
  destruct (run_miss_fulfilled gw CID w Hcid Hmiss data w1 Hrun) as (Hfetch & Hs & _).
  eexists. split; [exact Hfetch|]. split; [reflexivity|]. split; [reflexivity|].
  split; [|split].
  - simpl. rewrite Hs. unfold updateStatus at 1. rewrite lookup_insert_eq.
    rewrite (status_after_lookup CID w). reflexivity.
  - intros Hdef. simpl. apply LRUCacheFacts.find_set; [unfold CACHE_MAX; lia | exact Hdef].
  - intros ->. simpl. apply LRUCacheFacts.find_remove.
Qed.

Lemma X7_witness :
  truthy (VStr "QmA") = true
  /\ truthy (cached "QmA" empty_world) = false
  /\ exists w',
       run gateway_up (fetchCIDContent "QmA") empty_world = (Fulfilled payload, w')
       /\ status w' !! "QmA"
          = Some {| loading := Some false; error := Some VNull; lastUpdated := Some 40%N |}.
Proof.
  split; [reflexivity|]. split; [reflexivity|].
  destruct (X7_fetched_value_stored_and_reported gateway_up "QmA" empty_world
              (snd (run gateway_up (fetchWithRetry "QmA" 0) (after_lookup "QmA" empty_world)))
              payload eq_refl eq_refl eq_refl)
    as (w' & Hrun & _ & _ & Hst & _).
  exists w'. split; [exact Hrun | exact Hst].
Defined.



(** X9.  After [fetchCIDContent] for a non-empty CID, whatever the gateway
    did, the CID is shown as loading exactly when the call was served from
    the cache: every call that went to the gateway ends with [loading]
    false, and a cache hit leaves it true. *)
Theorem X9_loading_after_call (gw : Gateway) (CID : string) (w : World) :
  truthy (VStr CID) = true ->
  isLoading (status (snd (run gw (fetchCIDContent CID) w))) CID = truthy (cached CID w).
Proof.
  intros Hcid. destruct (truthy (cached CID w)) eqn:Hc.
  - rewrite (run_fetchCIDContent_hit gw CID w Hcid Hc). unfold isLoading.
    cbn [snd]. rewrite (status_after_lookup CID w). reflexivity.
  - destruct (run gw (fetchWithRetry CID 0) (after_lookup CID w)) as [[data|err] w1] eqn:Hrun.
    + destruct (run_miss_fulfilled gw CID w Hcid Hc data w1 Hrun) as (-> & Hs & _).
      unfold isLoading. simpl. unfold updateStatus at 1. rewrite lookup_insert_eq. reflexivity.
    + destruct (run_miss_rejected gw CID w Hcid Hc err w1 Hrun) as (msg & _ & -> & _).
      unfold isLoading. simpl. unfold updateStatus at 1. rewrite lookup_insert_eq. reflexivity.
Qed.

Lemma X9_witness :
  truthy (VStr "QmA") = true
  /\ isLoading (status (snd (run gateway_down (fetchCIDContent "QmA") warm_world))) "QmA" = true
  /\ isLoading (status (snd (run gateway_down (fetchCIDContent "QmA") empty_world))) "QmA" = false.
Proof.
  split; [reflexivity|]. split.
  - rewrite (X9_loading_after_call gateway_down "QmA" warm_world eq_refl). reflexivity.
  - rewrite (X9_loading_after_call gateway_down "QmA" empty_world eq_refl). reflexivity.
Defined.

(** X10.  [fetchCIDContent] makes at most [DEFAULT_MAX_RETRIES + 1]
    gateway calls, all of them for its own CID, whatever the gateway does;
    it makes none exactly when the CID is empty or the lookup is a hit. *)
Theorem X10_fetchCIDContent_call_bound (gw : Gateway) (CID : string) (w : World) :
  exists k,
    k <= DEFAULT_MAX_RETRIES + 1
    /\ calls (snd (run gw (fetchCIDContent CID) w)) = (calls w ++ replicate k CID)%list
    /\ (k = 0 <-> goes_to_gateway w CID = false).
Proof.
  unfold goes_to_gateway.
  destruct (truthy (VStr CID)) eqn:Hcid.
  2: { exists 0. rewrite (run_fetchCIDContent_empty gw CID w Hcid). simpl.
       rewrite app_nil_r. split; [lia|]. split; [reflexivity|]. split; reflexivity. }
  destruct (truthy (cached CID w)) eqn:Hc.
  { exists 0. rewrite (run_fetchCIDContent_hit gw CID w Hcid Hc). simpl.
    rewrite app_nil_r. split; [lia|]. split; [reflexivity|]. split; reflexivity. }
  destruct (retryLoop_calls gw CID DEFAULT_MAX_RETRIES 0 (after_lookup CID w))
    as (k & Hk & Hcalls).
  exists k. split; [lia|]. split.
  - rewrite (run_fetchCIDContent_miss gw CID w Hcid Hc), run_after_miss.
    destruct (run gw (retryLoop DEFAULT_MAX_RETRIES CID 0) (after_lookup CID w))
      as [[data|err] w1] eqn:Hrun; simpl in Hcalls.
    + simpl. exact Hcalls.
    + pose proof (retryLoop_result gw CID DEFAULT_MAX_RETRIES 0 (after_lookup CID w)) as Hres.
      rewrite Hrun in Hres. simpl in Hres.
      destruct Hres as [H|[(x & n & H & _)|[msg H]]]; try discriminate H.
      injection H as ->.
      destruct (run_record_error gw CID msg w1) as (m & -> & _). simpl. exact Hcalls.
  - simpl. split; [lia | discriminate].
Qed.

(** X11.  What the status mapping says of a CID is never lost, and the
    entries stay whole.  After [fetchCIDContent], against any gateway: a
    CID that had a status still has one; the CID of the call, if not empty,
    has one; and if every entry had all three fields before, every entry
    has them after, so that [getLastUpdated] is [undefined] exactly for the
    CIDs that have no entry.  The empty mapping the hook starts from has
    that property. *)
Theorem X11_status_entries_persist_and_stay_whole
    (gw : Gateway) (CID : string) (w : World) :
  let w' := snd (run gw (fetchCIDContent CID) w) in
  (forall c, is_Some (status w !! c) -> is_Some (status w' !! c))
  /\ (truthy (VStr CID) = true -> is_Some (status w' !! CID))
  /\ (StatusComplete (status w) ->
      StatusComplete (status w')
      /\ forall c, getLastUpdated (status w') c = None <-> status w' !! c = None)
  /\ StatusComplete ∅.
Proof.
  intros w'.
  assert (forall st : gmap string FetchStatus, StatusComplete st ->
            forall c, getLastUpdated st c = None <-> st !! c = None) as Hlast.
  { intros st Hst c. unfold getLastUpdated. destruct (st !! c) as [e|] eqn:He; [|tauto].
    destruct (Hst c e He) as (_ & _ & [t Ht]). rewrite Ht. split; discriminate. }
  split; [intros c; apply run_status_persists|].
  split.
  { intros Hcid. unfold w'. destruct (truthy (cached CID w)) eqn:Hc.
    - rewrite (run_fetchCIDContent_hit gw CID w Hcid Hc). simpl. apply updateStatus_present.
    - rewrite (run_fetchCIDContent_miss gw CID w Hcid Hc).
      apply run_status_persists. simpl. apply updateStatus_present. }
  split; [|intros c e He; rewrite lookup_empty in He; discriminate He].
  intros Hw.
  assert (StatusComplete (status w')) as Hw'; [|split; [exact Hw' | apply Hlast, Hw']].
  unfold w'. destruct (truthy (VStr CID)) eqn:Hcid.
  2: { rewrite (run_fetchCIDContent_empty gw CID w Hcid). exact Hw. }
  assert (StatusComplete (status (after_lookup CID w))) as Hlook.
  { simpl. apply updateStatus_complete; [exact Hw|]. left. simpl. eauto. }
  destruct (truthy (cached CID w)) eqn:Hc.
  { rewrite (run_fetchCIDContent_hit gw CID w Hcid Hc). exact Hlook. }
  destruct (run gw (fetchWithRetry CID 0) (after_lookup CID w)) as [[data|err] w1] eqn:Hrun.
  - destruct (run_miss_fulfilled gw CID w Hcid Hc data w1 Hrun) as (-> & Hs & _).
    simpl. rewrite Hs. apply updateStatus_complete; [exact Hlook|].
    right. simpl. apply updateStatus_present.
  - destruct (run_miss_rejected gw CID w Hcid Hc err w1 Hrun) as (msg & _ & -> & Hs & _).
    simpl. rewrite Hs. apply updateStatus_complete; [exact Hlook|]. left. simpl. eauto.
Qed.

Lemma X11_witness :
  StatusComplete (status empty_world)
  /\ StatusComplete (status (snd (run gateway_down (fetchCIDContent "QmA") empty_world))).
Proof.
  destruct (X11_status_entries_persist_and_stay_whole gateway_down "QmA" empty_world)
    as (_ & _ & Hkeep & Hempty).
  split; [exact Hempty|]. apply (proj1 (Hkeep Hempty)).
Defined.

(** ** The status mapping and its readers *)

(** X12.  Reading back an update.  After [updateStatus] for a CID, with any
    fields: [isLoading] gives the [loading] written, or what it gave before
    if none was; [getError] gives the [error] written ([null] if that is
    nullish), or what it gave before if none was; [getLastUpdated] gives
    the time of the update.  So [markLoading] clears the error,
    [markSuccess] keeps it, [markError] sets it. *)
Theorem X12_status_read_back
    (CID : string) (updates : FetchStatus) (date_now : N) (prev : gmap string FetchStatus) :
  let st := updateStatus CID updates date_now prev in
  isLoading st CID = default (isLoading prev CID) (loading updates)
  /\ getError st CID
     = match error updates with
       | Some e => if nullish e then VNull else e
       | None => getError prev CID
       end
  /\ getLastUpdated st CID = Some date_now
  /\ getError (markLoading CID date_now prev) CID = VNull
  /\ getError (markSuccess CID date_now prev) CID = getError prev CID
  /\ (forall message, nullish message = false ->
        getError (markError CID message date_now prev) CID = message).
Proof.
  assert (forall u,
            getError (updateStatus CID u date_now prev) CID
            = match error u with
              | Some e => if nullish e then VNull else e
              | None => getError prev CID
              end) as Herr.
  { intros u. unfold getError, updateStatus. rewrite lookup_insert_eq. simpl.
    destruct (error u); [reflexivity|]. destruct (prev !! CID); reflexivity. }
  intros st. split; [|split; [apply Herr|split; [|split; [|split]]]].
  - unfold st, isLoading, updateStatus. rewrite lookup_insert_eq. simpl.
    destruct (loading updates); [reflexivity|]. destruct (prev !! CID); reflexivity.
  - unfold st, getLastUpdated, updateStatus. rewrite lookup_insert_eq. reflexivity.
  - unfold markLoading. rewrite Herr. reflexivity.
  - unfold markSuccess. rewrite Herr. reflexivity.
  - intros message Hm. unfold markError. rewrite Herr. simpl. rewrite Hm. reflexivity.
Qed.

Lemma X12_witness :
  nullish (VStr "boom") = false
  /\ getError (markSuccess "QmA" 9 (markError "QmA" (VStr "boom") 7 ∅)) "QmA" = VStr "boom".
Proof.
  split; [reflexivity|].
  destruct (X12_status_read_back "QmA" success_update 9 (markError "QmA" (VStr "boom") 7 ∅))
    as (_ & _ & _ & _ & Hkeep & _).
  rewrite Hkeep.
  destruct (X12_status_read_back "QmA" success_update 7 ∅) as (_ & _ & _ & _ & _ & Hset).
  apply (Hset (VStr "boom")). reflexivity.
Defined.

(** ** fetchMultipleCIDs *)

(** X13.  What [fetchMultipleCIDs] does before anything is awaited is
    decided by the cache as it was at the start, call by call: a call for an
    empty CID is done with [null], a call whose lookup was a hit is done
    with the cached value, and every other call has made its gateway call
    and waits for the reply.  The gateway calls are made in the order of
    the input, one for every such entry, repeated entries included: two
    calls for the same CID that is not cached both go to the gateway.  If
    no entry goes to the gateway the aggregate is settled at once. *)
Theorem X13_dispatch_decided_by_initial_cache (CIDs : list string) (w : World) :
  let p := fetchMultipleCIDs CIDs w [] in
  calls (world p) = (calls w ++ List.filter (goes_to_gateway w) CIDs)%list
  /\ Forall2 (dispatched_as w) CIDs (tasks p)
  /\ (Forall (fun c => goes_to_gateway w c = false) CIDs ->
      exists vs, promise_all p = Some (Fulfilled vs)
                 /\ Forall2 (fun c v => settled_at_once w c = Some v) CIDs vs).
Proof.
  intros p.
  destruct (dispatch_as_lookups CIDs w (start_pool w) (same_lookups_refl w))
    as (ts & Hts & Hall & Hcalls & _).
  change (dispatch CIDs (start_pool w)) with p in Hts, Hcalls. simpl in Hts, Hcalls.
  rewrite Hts. split; [exact Hcalls|]. split; [exact Hall|].
  intros Hno. destruct (dispatched_all_settled w CIDs ts Hall Hno) as (vs & Hvals & Hcs).
  exists vs. split; [|exact Hcs].
  destruct (fetchMultipleCIDs_ok CIDs w []) as [ns [_ Hrej]]. fold p in Hrej.
  unfold promise_all. rewrite Hrej, Hts.
  rewrite (proj2 (mapM_Some fulfilled_value ts vs) Hvals). reflexivity.
Qed.

Lemma X13_witness :
  Forall (fun c => goes_to_gateway warm_world c = false) [""; "QmA"]
  /\ calls (world (fetchMultipleCIDs ["QmB"; "QmB"] warm_world []))
     = (calls warm_world ++ ["QmB"; "QmB"])%list
  /\ exists vs, promise_all (fetchMultipleCIDs [""; "QmA"] warm_world []) = Some (Fulfilled vs).
Proof.
  assert (Forall (fun c => goes_to_gateway warm_world c = false) [""; "QmA"]) as Hno.
  { repeat constructor. }
  split; [exact Hno|]. split.
  - apply (proj1 (X13_dispatch_decided_by_initial_cache ["QmB"; "QmB"] warm_world)).
  - destruct (proj2 (proj2 (X13_dispatch_decided_by_initial_cache [""; "QmA"] warm_world)) Hno)
      as (vs & Hvs & _).
    exists vs. exact Hvs.
Defined.

(** X14.  [fetchMultipleCIDs] touches the status of no CID outside its
    input, and removes no status entry, whatever replies and timers the
    event loop delivers and in whatever order. *)
Theorem X14_fetchMultipleCIDs_status_frame
    (CIDs : list string) (w : World) (evs : list Event) :
  let p := fetchMultipleCIDs CIDs w evs in
  (forall other, other ∉ CIDs -> status (world p) !! other = status w !! other)
  /\ (forall c, is_Some (status w !! c) -> is_Some (status (world p) !! c)).
Proof.
  intros p. unfold p, fetchMultipleCIDs.
  destruct (dispatch_updates CIDs [] (start_pool w)) as (Hall & Hframe & Hpers);
    [constructor|].
  destruct (event_loop_updates ([] ++ CIDs) evs _ Hall) as [Hframe' Hpers'].
  split.
  - intros other Hother. rewrite (Hframe' other Hother). apply (Hframe other Hother).
  - intros c Hc. apply Hpers', Hpers, Hc.
Qed.

Lemma X14_witness :
  ("QmA" ∉ ["a"; "b"; "c"])
  /\ status (world (fetchMultipleCIDs ["a"; "b"; "c"] warm_world three_replies)) !! "QmA"
     = status warm_world !! "QmA".
Proof.
  assert ("QmA" ∉ ["a"; "b"; "c"]) as Hout.
  { intros Hin. repeat (apply elem_of_cons in Hin as [Hin|Hin]; [discriminate Hin|]).
    apply elem_of_nil in Hin. exact Hin. }
  split; [exact Hout|].
  apply (proj1 (X14_fetchMultipleCIDs_status_frame ["a"; "b"; "c"] warm_world three_replies)).
  exact Hout.
Defined.

(** X15.  For a single CID, [fetchMultipleCIDs] awaited against a gateway
    gives the one-element sequence of what [fetchCIDContent] gives when
    awaited against that gateway, and leaves the same world. *)
Theorem X15_single_CID_agrees_with_fetchCIDContent
    (gw : Gateway) (CID : string) (w : World) :
  let p := fetchMultipleCIDs [CID] w (awaited gw (fetchCIDContent CID) w) in
  exists v,
    run gw (fetchCIDContent CID) w = (Fulfilled v, world p)
    /\ promise_all p = Some (Fulfilled [v]).
Proof.
  intros p.
  destruct (run_Safe gw _ (Safe_fetchCIDContent CID) w) as (v & w' & Hrun).
  assert (p = {| tasks := [Done (Fulfilled v)]; rejection := None; world := w' |}) as ->.
  { unfold p, fetchMultipleCIDs. rewrite dispatch_one, awaiting_is_a_schedule, Hrun.
    reflexivity. }
  exists v. split; [exact Hrun | reflexivity].
Qed.

(** X16.  Whatever replies and timers the event loop delivers, and in
    whatever order, [fetchMultipleCIDs] makes, for every CID, no more than
    [DEFAULT_MAX_RETRIES + 1] gateway calls for each entry of its input
    that is this CID: none for a CID that is not in the input, at most
    three for one that is there once, at most six for one that is there
    twice.  So every call is for a CID of the input, and there are no more
    than [DEFAULT_MAX_RETRIES + 1] times its length of them. *)
Theorem X16_fetchMultipleCIDs_call_bound
    (CIDs : list string) (w : World) (evs : list Event) :
  exists extra,
    calls (world (fetchMultipleCIDs CIDs w evs)) = (calls w ++ extra)%list
    /\ (forall c, occurrences c extra <= (DEFAULT_MAX_RETRIES + 1) * occurrences c CIDs)
    /\ Forall (fun c => c ∈ CIDs) extra
    /\ length extra <= (DEFAULT_MAX_RETRIES + 1) * length CIDs.
Proof.
  assert (PoolCalls (calls w) [] (start_pool w)) as Hstart.
  { split; [constructor|]. exists []. simpl. rewrite app_nil_r.
    split; [reflexivity|]. split; [intros c; simpl; lia | simpl; lia]. }
  destruct (dispatch_calls (calls w) CIDs [] (start_pool w) Hstart) as (cbs & Hfst & Hdisp).
  destruct (event_loop_calls (calls w) evs cbs _ Hdisp) as (cbs' & Hfst' & Hloop).
  fold (fetchMultipleCIDs CIDs w evs) in Hloop.
  assert (cbs'.*1 = CIDs) as Hcids by (rewrite Hfst', Hfst; reflexivity).
  destruct Hloop as (_ & extra & Hcalls & Heach & Hsum).
  assert (forall c, occurrences c extra <= (DEFAULT_MAX_RETRIES + 1) * occurrences c CIDs)
    as Hper.
  { intros c. specialize (Heach c). rewrite entries_fst, Hcids in Heach. lia. }
  exists extra. split; [exact Hcalls|]. split; [exact Hper|]. split.
  - apply Forall_forall. intros c Hc. apply occurrences_elem_of.
    specialize (Hper c).
    assert (0 < occurrences c extra) as Hpos.
    { clear - Hc. unfold occurrences. induction Hc as [c l|c x l _ IH]; simpl.
      - rewrite String.eqb_refl. simpl. lia.
      - destruct (String.eqb c x); simpl; lia. }
    destruct (occurrences c CIDs); [lia | lia].
  - assert (length cbs' = length CIDs) as Hlen by (rewrite <- Hcids, length_fmap; reflexivity).
    rewrite <- Hlen. lia.
Qed.

(** ** fetchWithRetry: where the retries stop *)

(** X17.  The retries stop at the first authorization failure, wherever it
    comes: when the first [k <= DEFAULT_MAX_RETRIES] calls fail with errors
    classified as not auth and the next fails with one classified as auth,
    [fetchWithRetry] has made exactly [k + 1] calls and returns [null]. *)
Theorem X17_retries_stop_at_auth_failure
    (gw : Gateway) (CID : string) (w : World) (k : nat) (e : Value) :
  k <= DEFAULT_MAX_RETRIES ->
  (forall j, j < k ->
     exists e', attempt gw CID w j = Rejected e' /\ isAuthError e' = Fulfilled false) ->
  attempt gw CID w k = Rejected e ->
  isAuthError e = Fulfilled true ->
  exists w', run gw (fetchWithRetry CID 0) w = (Fulfilled VNull, w')
             /\ calls w' = (calls w ++ replicate (k + 1) CID)%list.
Proof.
  intros Hk Hfail He Hauth. replace (k + 1) with (S k) by lia.
  apply (retryLoop_stops_at_auth gw CID (DEFAULT_MAX_RETRIES - 0) 0 w k e); assumption.
Qed.

Lemma X17_witness :
  attempt gateway_down_then_forbidden "QmA" empty_world 1 = Rejected forbidden
  /\ isAuthError forbidden = Fulfilled true
  /\ exists w',
       run gateway_down_then_forbidden (fetchWithRetry "QmA" 0) empty_world
       = (Fulfilled VNull, w')
       /\ calls w' = ["QmA"; "QmA"].
Proof.
  split; [reflexivity|]. split; [reflexivity|].
  apply (X17_retries_stop_at_auth_failure gateway_down_then_forbidden "QmA" empty_world
           1 forbidden).
  - unfold DEFAULT_MAX_RETRIES. lia.
  - intros j Hj. exists network_error. split; [|reflexivity].
    destruct j as [|j]; [reflexivity | lia].
  - reflexivity.
  - reflexivity.
Defined.
